(** * metal.js: [core] utilities and [DomDelegatedEventHandle]

    A shallow embedding of [src/core.js] and of
    [packages/metal-dom/src/DomDelegatedEventHandle.js], with the properties
    stated about them.

    JavaScript values are a first-order datatype; objects and functions are
    references into explicit stores.  A function that can throw returns a
    [completion]; a function that mutates shared state takes the state and
    returns the new one. *)

From Stdlib Require Import ZArith QArith.
From stdpp Require Import base option list strings gmap fin_maps.

Local Open Scope Z_scope.

(** ** JavaScript values *)

(** References to objects (plain objects, arrays, functions, DOM nodes). *)
Definition loc := nat.

(** Numbers are IEEE doubles.  Every finite double is a rational, so finite
    numbers are carried by [Q]; the numbers the code distinguishes are zero,
    [NaN] and the literal [1]. *)
Inductive number :=
  | NaN
  | Infinity (negative : bool)
  | NegZero
  | Finite (q : Q).

Inductive value :=
  | VUndefined
  | VNull
  | VBool (b : bool)
  | VNum (n : number)
  | VStr (s : string)
  | VObj (l : loc)
  | VFun (l : loc).

(** Errors the code can raise: [new Error()] / [Error(msg)], and the
    [TypeError] of the language itself (property of [undefined], call of a
    non-function, property creation on a primitive in strict mode). *)
Inductive error :=
  | GenericError
  | TypeError.

Inductive completion (A : Type) :=
  | Normal (a : A)
  | Throw (e : error).
Arguments Normal {A} a.
Arguments Throw {A} e.


(** [typeof val] *)
Definition typeof (val : value) : string :=
  match val with
  | VUndefined => "undefined"
  | VNull => "object"
  | VBool _ => "boolean"
  | VNum _ => "number"
  | VStr _ => "string"
  | VObj _ => "object"
  | VFun _ => "function"
  end.

(** [ToBoolean]: what [if (v)], [!v], [v && _] and [v || _] test. *)
Definition number_truthy (n : number) : bool :=
  match n with
  | NaN => false
  | Infinity _ => true
  | NegZero => false
  | Finite q => negb (Qeq_bool q 0)
  end.

Definition truthy (val : value) : bool :=
  match val with
  | VUndefined => false
  | VNull => false
  | VBool b => b
  | VNum n => number_truthy n
  | VStr s => negb (String.eqb s "")
  | VObj _ => true
  | VFun _ => true
  end.

(** [a === b] *)
Definition number_equals (a b : number) : bool :=
  match a, b with
  | NaN, _ | _, NaN => false
  | Infinity s, Infinity t => Bool.eqb s t
  | NegZero, NegZero => true
  | NegZero, Finite q | Finite q, NegZero => Qeq_bool q 0
  | Finite p, Finite q => Qeq_bool p q
  | _, _ => false
  end.

Definition strict_equals (a b : value) : bool :=
  match a, b with
  | VUndefined, VUndefined => true
  | VNull, VNull => true
  | VBool x, VBool y => Bool.eqb x y
  | VNum x, VNum y => number_equals x y
  | VStr x, VStr y => String.eqb x y
  | VObj x, VObj y => Nat.eqb x y
  | VFun x, VFun y => Nat.eqb x y
  | _, _ => false
  end.

(** [a && b] on values: the left operand when it is falsy (the right
    operand is pure wherever this is used below). *)
Definition js_and (a b : value) : value := if truthy a then b else a.

Definition is_boolean (v : value) : Prop := ∃ b, v = VBool b.

(** ** Object store *)

(** An object is its own properties (prototype chains are outside the
    model); a reference without an entry is an object without properties.
    Reading a missing property gives [undefined]. *)
Record heap := Heap {
  objects : gmap loc (gmap string value);
  (** elements of the array objects *)
  arrays : gmap loc (list value);
  (** next unused reference *)
  next_loc : loc
}.

Definition props_of (h : heap) (l : loc) : gmap string value :=
  default ∅ (objects h !! l).

Definition get_prop (h : heap) (l : loc) (name : string) : value :=
  default VUndefined (props_of h l !! name).

Definition set_prop (h : heap) (l : loc) (name : string) (v : value) : heap :=
  {| objects := <[l := <[name := v]> (props_of h l)]> (objects h);
     arrays := arrays h;
     next_loc := next_loc h |}.

(** *** Type predicates ([core.js], lines 239-306) *)

Definition isBoolean (val : value) : bool :=
  String.eqb (typeof val) "boolean".

Definition isDef (val : value) : bool :=
  negb (strict_equals val VUndefined).

Definition isNull (val : value) : bool :=
  strict_equals val VNull.

Definition isDefAndNotNull (val : value) : bool :=
  isDef val && negb (isNull val).

(** [val && typeof val === 'object' && val.nodeType === 1]: the result of
    [&&] is the left operand when that is falsy.  The property read happens
    only for a truthy [val] of type ['object'], which is a reference. *)
Definition isElement (h : heap) (val : value) : value :=
  js_and val
    (js_and (VBool (String.eqb (typeof val) "object"))
       (VBool (strict_equals
                 (match val with
                  | VObj l => get_prop h l "nodeType"
                  | _ => VUndefined
                  end)
                 (VNum (Finite 1))))).

Definition isFunction (val : value) : bool :=
  String.eqb (typeof val) "function".

Definition isObject (val : value) : bool :=
  let type := typeof val in
  String.eqb type "object" && negb (strict_equals val VNull)
  || String.eqb type "function".

Definition isString (val : value) : bool :=
  String.eqb (typeof val) "string".

(** *** [bind] and [rbind] ([core.js], lines 53-141 and 356-373) *)

(** A function object is called with a receiver and an argument list.  What
    the call does is given by [call_of], the behaviour of the function
    objects of the program, with results in an arbitrary type [R] (which may
    itself stand for a state transformer or an exception of the callee).
    The closures that [bind] and [rbind] return are [callable]s. *)
Definition callable (R : Type) := value → list value → completion R.

(** [arguments[i]] *)
Definition argument (arguments : list value) (i : nat) : value :=
  default VUndefined (arguments !! i).

(** [fn.apply(context, args)]: a [TypeError] unless [fn] is a function. *)
Definition Function_apply {R} (call_of : loc → value → list value → R)
    (fn context : value) (args : list value) : completion R :=
  match fn with
  | VFun f => Normal (call_of f context args)
  | _ => Throw TypeError
  end.

Definition bindWithArgs_ {R} (call_of : loc → value → list value → R)
    (arguments : list value) : callable R :=
  let fn := argument arguments 0 in
  let context := argument arguments 1 in
  let args := drop 2 arguments in
  λ _ newArgs, Function_apply call_of fn context (args ++ newArgs).

(** [fn.call.apply(fn.bind, arguments)] is [fn.bind(context, ...args)], the
    native bound function: called with any receiver, it calls [fn] with the
    bound receiver and the bound arguments first.  Reading [call] off a
    value that is not a function gives no function to apply. *)
Definition bindWithNative_ {R} (call_of : loc → value → list value → R)
    (arguments : list value) : completion (callable R) :=
  match argument arguments 0 with
  | VFun f =>
      let bind : callable R :=
        λ _ callArgs,
          Normal (call_of f (argument arguments 1) (drop 2 arguments ++ callArgs)) in
      Normal (λ _ callArgs, bind VNull callArgs)
  | _ => Throw TypeError
  end.

Definition bindWithoutArgs_ {R} (call_of : loc → value → list value → R)
    (fn context : value) : callable R :=
  λ _ callArgs, Function_apply call_of fn context callArgs.

Definition bindWithoutNative_ {R} (call_of : loc → value → list value → R)
    (arguments : list value) : callable R :=
  if (2 <? length arguments)%nat
  then bindWithArgs_ call_of arguments
  else bindWithoutArgs_ call_of (argument arguments 0) (argument arguments 1).

(** [Function_prototype_bind] tells whether the engine has a native
    [Function.prototype.bind]. *)
Definition bind {R} (call_of : loc → value → list value → R)
    (Function_prototype_bind : bool) (arguments : list value)
    : completion (callable R) :=
  let fn := argument arguments 0 in
  if negb (truthy fn) then Throw GenericError
  else if Function_prototype_bind
       then bindWithNative_ call_of arguments
       else Normal (bindWithoutNative_ call_of arguments).

Definition rbind {R} (call_of : loc → value → list value → R)
    (arguments : list value) : completion (callable R) :=
  let fn := argument arguments 0 in
  let context := argument arguments 1 in
  if negb (truthy fn) then Throw GenericError
  else if (2 <? length arguments)%nat
       then
         let args := drop 2 arguments in
         Normal (λ _ callArgs, Function_apply call_of fn context (callArgs ++ args))
       else Normal (λ _ callArgs, Function_apply call_of fn context callArgs).

(** *** [getUid] ([core.js], lines 14-21 and 170-176) *)

(** [core.uniqueIdCounter_] and, for every object, its [core.UID_PROPERTY]
    slot.  The property name is drawn at random when the module loads, so
    [getUid] is the only writer of the slot and the slot holds an integer or
    is missing.  The counter is an integer-valued number; integers are exact
    in a double below 2^53 and the counter is modelled in that range. *)
Record uid_state := UidState {
  uniqueIdCounter_ : Z;
  uid_property : gmap loc Z
}.

(** The state when the module has just been loaded. *)
Definition fresh_uid_state : uid_state :=
  {| uniqueIdCounter_ := 1; uid_property := ∅ |}.

(** [core.uniqueIdCounter_++]: the old value is the value of the expression. *)
Definition post_increment (s : uid_state) : uid_state :=
  {| uniqueIdCounter_ := uniqueIdCounter_ s + 1; uid_property := uid_property s |}.

(** [opt_object[core.UID_PROPERTY] = core.uniqueIdCounter_++] on the object
    at [l]. *)
Definition stamp (l : loc) (s : uid_state) : uid_state * completion Z :=
  ({| uniqueIdCounter_ := uniqueIdCounter_ s + 1;
      uid_property := <[l := uniqueIdCounter_ s]> (uid_property s) |},
   Normal (uniqueIdCounter_ s)).

(** The file is strict code: creating a property on a truthy primitive
    throws, after the right-hand side has been evaluated. *)
Definition getUid (opt_object : value) (s : uid_state) : uid_state * completion Z :=
  if truthy opt_object then
    match opt_object with
    | VObj l | VFun l =>
        match uid_property s !! l with
        | Some u => if u =? 0 then stamp l s else (s, Normal u)
        | None => stamp l s
        end
    | _ => (post_increment s, Throw TypeError)
    end
  else (post_increment s, Normal (uniqueIdCounter_ s)).

(** A caller that passes an object, or nothing. *)
Definition uid_argument (a : option loc) : value :=
  match a with
  | Some l => VObj l
  | None => VUndefined
  end.


Fixpoint uid_run (calls : list (option loc)) (s : uid_state) : list (completion Z) :=
  match calls with
  | [] => []
  | a :: rest =>
      let '(s', r) := getUid (uid_argument a) s in
      r :: uid_run rest s'
  end.

(** *** [collectSuperClassesProperty] and [mergeSuperClassesProperty]
    ([core.js], lines 152-159 and 320-332) *)

(** [v[name]] as an expression: [undefined] and [null] have no properties to
    read; a primitive has no own property. *)
Definition read_prop (h : heap) (v : value) (name : string) : completion value :=
  match v with
  | VUndefined | VNull => Throw TypeError
  | VObj l | VFun l => Normal (get_prop h l name)
  | _ => Normal VUndefined
  end.

(** [v[name] = x] in strict code. *)
Definition write_prop (h : heap) (v : value) (name : string) (x : value)
    : completion heap :=
  match v with
  | VObj l | VFun l => Normal (set_prop h l name x)
  | _ => Throw TypeError
  end.

(** A new array object with the given elements. *)
Definition alloc_array (h : heap) (elems : list value) : heap * loc :=
  ({| objects := objects h;
      arrays := <[next_loc h := elems]> (arrays h);
      next_loc := S (next_loc h) |},
   next_loc h).

(** The [while (constructor.superClass_)] loop.  A chain of [superClass_]
    links can be cyclic, so the loop is run on fuel; [None] is a loop that
    has not finished within it. *)
Fixpoint collect_loop (fuel : nat) (h : heap) (constructor : value)
    (propertyName : string) (propertyValues : list value)
    : option (completion (list value)) :=
  match fuel with
  | O => None
  | S fuel' =>
      match read_prop h constructor "superClass_" with
      | Throw e => Some (Throw e)
      | Normal superClass_ =>
          if truthy superClass_ then
            match read_prop h superClass_ "constructor" with
            | Throw e => Some (Throw e)
            | Normal constructor' =>
                match read_prop h constructor' propertyName with
                | Throw e => Some (Throw e)
                | Normal v =>
                    collect_loop fuel' h constructor' propertyName
                      (propertyValues ++ [v])
                end
            end
          else Some (Normal propertyValues)
      end
  end.

Definition collectSuperClassesProperty (fuel : nat) (h : heap)
    (constructor : value) (propertyName : string)
    : option (completion (list value)) :=
  match read_prop h constructor propertyName with
  | Throw e => Some (Throw e)
  | Normal v => collect_loop fuel h constructor propertyName [v]
  end.

(** The store together with two counters that are not program state: how
    often the super classes were collected and how often a merge function
    was invoked. *)
Record merge_state := MergeState {
  st_heap : heap;
  collections : nat;
  merge_invocations : nat
}.

(** [merge_of f arr elems] is what the function object [f] returns when it
    is passed the array [arr] whose elements are [elems]; merge functions
    inspect their argument and leave the store alone. *)
Definition mergeSuperClassesProperty (merge_of : loc → loc → list value → value)
    (fuel : nat) (constructor : value) (propertyName : string)
    (opt_mergeFn : value) (s : merge_state)
    : option (merge_state * completion value) :=
  let mergedName := (propertyName ++ "_MERGED")%string in
  match read_prop (st_heap s) constructor mergedName with
  | Throw e => Some (s, Throw e)
  | Normal cached =>
      if truthy cached then
        Some (s, read_prop (st_heap s) constructor mergedName)
      else
        match collectSuperClassesProperty fuel (st_heap s) constructor propertyName with
        | None => None
        | Some (Throw e) => Some (s, Throw e)
        | Some (Normal propertyValues) =>
            let '(h1, arr) := alloc_array (st_heap s) propertyValues in
            let s1 := {| st_heap := h1;
                         collections := S (collections s);
                         merge_invocations := merge_invocations s |} in
            if truthy opt_mergeFn then
              match opt_mergeFn with
              | VFun f =>
                  let merged := merge_of f arr propertyValues in
                  match write_prop h1 constructor mergedName merged with
                  | Throw e =>
                      Some ({| st_heap := h1;
                               collections := collections s1;
                               merge_invocations := S (merge_invocations s1) |},
                            Throw e)
                  | Normal h2 =>
                      Some ({| st_heap := h2;
                               collections := collections s1;
                               merge_invocations := S (merge_invocations s1) |},
                            read_prop h2 constructor mergedName)
                  end
              | _ => Some (s1, Throw TypeError)
              end
            else
              match write_prop h1 constructor mergedName (VObj arr) with
              | Throw e => Some (s1, Throw e)
              | Normal h2 =>
                  Some ({| st_heap := h2;
                           collections := collections s1;
                           merge_invocations := merge_invocations s1 |},
                        read_prop h2 constructor mergedName)
              end
        end
  end.

(** ** [DomDelegatedEventHandle] *)

(** *** The registry of an element *)

(** Modelled from the spec: the side-table of [domData], which is not among
    the sources.  [domData.get(element, 'listeners', {})] and
    [domData.get(element, 'delegating', {})] give the two mappings of the
    element's registry: event name to listeners, and event name to an entry
    whose [selectors] map a selector to listeners.  Listeners are function
    references.  Every bucket is an array of its own, so removing from a
    bucket in place is replacing the sequence stored under its key. *)
Record delegate := Delegate {
  selectors : gmap string (list loc)
}.

Record registry := Registry {
  listeners : gmap string (list loc);
  delegating : gmap string delegate
}.

Definition empty_registry : registry :=
  {| listeners := ∅; delegating := ∅ |}.

(** Modelled from the spec: [array.remove] of the [metal] package, which is
    not among the sources.  It searches the sequence for the reference and
    removes it (the first one found); a sequence without it is left as it
    is. *)
Fixpoint array_remove (arr : list loc) (obj : loc) : list loc :=
  match arr with
  | [] => []
  | x :: rest => if decide (x = obj) then rest else x :: array_remove rest obj
  end.

(** *** The handle ([DomDelegatedEventHandle.js], lines 12-42) *)

(** Modelled from the spec: the fields [emitter_], [event_] and [listener_]
    that the [EventHandle] constructor of [metal-events] (not among the
    sources) keeps from its three arguments; [selector_] is the field set
    at line 24. *)
Record handle := Handle {
  emitter_ : loc;
  event_ : string;
  listener_ : loc;
  selector_ : value
}.

(** [new DomDelegatedEventHandle(emitter, event, listener, opt_selector)] *)
Definition DomDelegatedEventHandle (emitter : loc) (event : string)
    (listener : loc) (opt_selector : value) : handle :=
  {| emitter_ := emitter; event_ := event; listener_ := listener;
     selector_ := opt_selector |}.

(** Lines 37-40 on the mapping [arr]:
    [array.remove(arr[key] || [], listener)], then
    [if (arr[key] && arr[key].length === 0) delete arr[key]]. *)
Definition remove_from_bucket (arr : gmap string (list loc)) (key : string)
    (listener : loc) : gmap string (list loc) :=
  let arr1 :=
    match arr !! key with
    | Some bucket => <[key := array_remove bucket listener]> arr
    | None => arr
    end in
  match arr1 !! key with
  | Some bucket => if (length bucket =? 0)%nat then delete key arr1 else arr1
  | None => arr1
  end.

(** The property key a string value is used as. *)
Definition property_key (v : value) : string :=
  match v with
  | VStr s => s
  | _ => ""
  end.

(** [removeListener()] on the registry of the handle's emitter.  With a
    string selector the mapping is [delegating[this.event_].selectors], and
    reading [selectors] off a missing entry throws. *)
Definition removeListener (h : handle) (r : registry) : completion registry :=
  let selector := selector_ h in
  if isString selector then
    match delegating r !! event_ h with
    | None => Throw TypeError
    | Some d =>
        let arr := selectors d in
        let key := property_key selector in
        Normal {| listeners := listeners r;
                  delegating :=
                    <[event_ h :=
                        {| selectors := remove_from_bucket arr key (listener_ h) |}]>
                      (delegating r) |}
    end
  else
    let arr := listeners r in
    let key := event_ h in
    Normal {| listeners := remove_from_bucket arr key (listener_ h);
              delegating := delegating r |}.

(** The bucket a handle removes from, if the registry has it. *)
Definition bucket_of (h : handle) (r : registry) : option (list loc) :=
  if isString (selector_ h) then
    d ← delegating r !! event_ h;
    selectors d !! property_key (selector_ h)
  else listeners r !! event_ h.

(** *** Vocabulary of the statements *)

(** What holds of every state reached from the fresh one: the counter is
    positive and every stamp is a positive integer below it. *)
Definition uid_inv (s : uid_state) : Prop :=
  1 ≤ uniqueIdCounter_ s ∧
  ∀ l u, uid_property s !! l = Some u → 1 ≤ u < uniqueIdCounter_ s.



(** Two calls of [mergeSuperClassesProperty] with the same arguments, one
    after the other: the state and the result after each. *)
Definition merge_twice (merge_of : loc → loc → list value → value)
    (fuel : nat) (constructor : value) (propertyName : string)
    (opt_mergeFn : value) (s : merge_state)
    : option ((merge_state * completion value) * (merge_state * completion value)) :=
  match mergeSuperClassesProperty merge_of fuel constructor propertyName opt_mergeFn s with
  | Some (s1, r1) =>
      match mergeSuperClassesProperty merge_of fuel constructor propertyName opt_mergeFn s1 with
      | Some (s2, r2) => Some ((s1, r1), (s2, r2))
      | None => None
      end
  | None => None
  end.

(** A class [function C() {}] at reference 0 with [C.ATTRS = 'a'] and no
    super class, and a function object at reference 1. *)
Definition one_class_state : merge_state :=
  {| st_heap := {| objects := {[0%nat := {["ATTRS" := VStr "a"]}]};
                   arrays := ∅;
                   next_loc := 2%nat |};
     collections := 0;
     merge_invocations := 0 |}.

(** A merge function whose result is the number 0. *)
Definition merge_to_zero : loc → loc → list value → value :=
  λ _ _ _, VNum (Finite 0).

(** *** [inherits] and [base] ([core.js], lines 198-223) *)

(** The object a value refers to, if it is a reference. *)
Definition reference_of (v : value) : option loc :=
  match v with
  | VObj l | VFun l => Some l
  | _ => None
  end.

(** The store of a program that builds classes: the properties, the
    prototype link of the objects that [inherits] makes with
    [new TempCtor()] (objects without a link inherit from nothing that is
    modelled), and for each [base] function that [inherits] makes the
    [parentCtor] it closes over. *)
Record class_store := ClassStore {
  cs_heap : heap;
  cs_proto : gmap loc loc;
  cs_base : gmap loc value
}.

(** A new object: no property of its own. *)
Definition alloc_object (h : heap) : heap * loc :=
  ({| objects := <[next_loc h := ∅]> (objects h);
      arrays := arrays h;
      next_loc := S (next_loc h) |},
   next_loc h).

(** [new TempCtor()] with [TempCtor.prototype = prototype]: the link is set
    when [prototype] is an object. *)
Definition link_prototype (o : loc) (prototype : value) (protos : gmap loc loc)
    : gmap loc loc :=
  match reference_of prototype with
  | Some lp => <[o := lp]> protos
  | None => delete o protos
  end.

Definition inherits (childCtor parentCtor : value) (s : class_store)
    : completion class_store :=
  (* TempCtor.prototype = parentCtor.prototype *)
  match read_prop (cs_heap s) parentCtor "prototype" with
  | Throw e => Throw e
  | Normal TempCtor_prototype =>
      (* childCtor.superClass_ = parentCtor.prototype *)
      match read_prop (cs_heap s) parentCtor "prototype" with
      | Throw e => Throw e
      | Normal parent_prototype =>
          match write_prop (cs_heap s) childCtor "superClass_" parent_prototype with
          | Throw e => Throw e
          | Normal h1 =>
              (* childCtor.prototype = new TempCtor() *)
              let '(h2, o) := alloc_object h1 in
              match write_prop h2 childCtor "prototype" (VObj o) with
              | Throw e => Throw e
              | Normal h3 =>
                  (* childCtor.prototype.constructor = childCtor *)
                  match read_prop h3 childCtor "prototype" with
                  | Throw e => Throw e
                  | Normal child_prototype =>
                      match write_prop h3 child_prototype "constructor" childCtor with
                      | Throw e => Throw e
                      | Normal h4 =>
                          (* childCtor.base = function(me, methodName) {...} *)
                          let '(h5, b) := alloc_object h4 in
                          match write_prop h5 childCtor "base" (VFun b) with
                          | Throw e => Throw e
                          | Normal h6 =>
                              Normal
                                {| cs_heap := h6;
                                   cs_proto :=
                                     link_prototype o TempCtor_prototype (cs_proto s);
                                   cs_base := <[b := parentCtor]> (cs_base s) |}
                          end
                      end
                  end
              end
          end
      end
  end.

(** [o[name]] through the prototype links.  The links of a store can be
    cyclic as far as the type goes, so the walk is run on fuel. *)
Fixpoint chain_get (fuel : nat) (s : class_store) (l : loc) (name : string)
    : option value :=
  match fuel with
  | O => None
  | S fuel' =>
      match props_of (cs_heap s) l !! name with
      | Some v => Some v
      | None =>
          match cs_proto s !! l with
          | Some l' => chain_get fuel' s l' name
          | None => Some VUndefined
          end
      end
  end.

Definition chain_read (fuel : nat) (s : class_store) (v : value) (name : string)
    : option (completion value) :=
  match v with
  | VUndefined | VNull => Some (Throw TypeError)
  | VObj l | VFun l => Normal <$> chain_get fuel s l name
  | _ => Some (Normal VUndefined)
  end.

(** The body of [childCtor.base], for the [parentCtor] of its closure:
    [parentCtor.prototype[methodName].apply(me, args)]. *)
Definition base {R} (call_of : loc → value → list value → R) (fuel : nat)
    (s : class_store) (parentCtor : value)
    (me : value) (methodName : string) (args : list value)
    : option (completion R) :=
  match read_prop (cs_heap s) parentCtor "prototype" with
  | Throw e => Some (Throw e)
  | Normal prototype =>
      match chain_read fuel s prototype methodName with
      | None => None
      | Some (Throw e) => Some (Throw e)
      | Some (Normal method) => Some (Function_apply call_of method me args)
      end
  end.

(** [ctor.base(me, methodName, ...args)]: the function found under [base]
    is called; one made by [inherits] runs the body above. *)
Definition call_base {R} (call_of : loc → value → list value → R) (fuel : nat)
    (s : class_store) (ctor : value)
    (me : value) (methodName : string) (args : list value)
    : option (completion R) :=
  match read_prop (cs_heap s) ctor "base" with
  | Throw e => Some (Throw e)
  | Normal (VFun b) =>
      match cs_base s !! b with
      | Some parentCtor => base call_of fuel s parentCtor me methodName args
      | None => Some (Normal (call_of b ctor (me :: VStr methodName :: args)))
      end
  | Normal _ => Some (Throw TypeError)
  end.

(** An object that has been allocated. *)
Definition allocated (h : heap) (l : loc) : Prop := (l < next_loc h)%nat.

(** *** More vocabulary *)

(** A sequence of [getUid] calls with arbitrary arguments. *)
Fixpoint uid_exec_values (calls : list value) (s : uid_state) : uid_state :=
  match calls with
  | [] => s
  | v :: rest => uid_exec_values rest (getUid v s).1
  end.

(** No two objects carry the same stamp. *)
Definition uid_injective (s : uid_state) : Prop :=
  ∀ l1 l2 u, uid_property s !! l1 = Some u → uid_property s !! l2 = Some u → l1 = l2.

(** The bucket of a registry under an event and, for a delegated listener,
    a selector; a missing bucket is the empty sequence. *)
Definition bucket_at (r : registry) (event : string) (selector : option string)
    : list loc :=
  default []
    (match selector with
     | Some sel => d ← delegating r !! event; selectors d !! sel
     | None => listeners r !! event
     end).

(** The selector under which a handle's bucket is kept: its string
    selector, or none for a direct listener. *)
Definition handle_selector (h : handle) : option string :=
  if isString (selector_ h) then Some (property_key (selector_ h)) else None.

(** How often a listener occurs in a bucket. *)
Definition occurrences (x : loc) (bucket : list loc) : nat :=
  length (filter (λ y, y = x) bucket).

(** No mapping of the registry holds an empty bucket. *)
Definition no_empty_bucket (r : registry) : Prop :=
  (∀ event bucket, listeners r !! event = Some bucket → bucket ≠ []) ∧
  (∀ event d selector bucket,
     delegating r !! event = Some d →
     selectors d !! selector = Some bucket → bucket ≠ []).

(** * Properties *)

(** ** JavaScript values *)

Lemma truthy_reference (v : value) :
  isObject v = true → truthy v = true.
Proof. destruct v; cbn; congruence. Qed.

Lemma isDefAndNotNull_spec (v : value) :
  isDefAndNotNull v = isDef v && negb (isNull v).
Proof. reflexivity. Qed.

Lemma isString_VStr (v : value) :
  isString v = true ↔ ∃ s, v = VStr s.
Proof.
  split.
  - destruct v; cbn; try discriminate. eauto.
  - intros [s ->]. reflexivity.
Qed.


(** ** Type predicates *)

(** On a falsy value [isElement] returns the value itself. *)
Lemma isElement_falsy (h : heap) (v : value) :
  truthy v = false → isElement h v = v.
Proof. intros Hv. unfold isElement, js_and. by rewrite Hv. Qed.

(** On a truthy value [isElement] returns a boolean. *)
Lemma isElement_truthy (h : heap) (v : value) :
  truthy v = true → is_boolean (isElement h v).
Proof.
  intros Hv. unfold isElement, js_and. rewrite Hv. cbn.
  destruct (String.eqb (typeof v) "object"); eexists; reflexivity.
Qed.

(** [isElement] returns [true] exactly on an object whose [nodeType] is 1. *)
Lemma isElement_true_iff (h : heap) (v : value) :
  isElement h v = VBool true ↔
  ∃ l, v = VObj l ∧ strict_equals (get_prop h l "nodeType") (VNum (Finite 1)) = true.
Proof.
  split.
  - destruct v as [| |b|n|s|l|l]; unfold isElement, js_and; cbn;
      try discriminate.
    + destruct b; discriminate.
    + destruct (number_truthy n); discriminate.
    + destruct (negb (String.eqb s "")); discriminate.
    + intros [= Hn]. eauto.
  - intros (l & -> & Hn). unfold isElement, js_and. cbn. by rewrite Hn.
Qed.

(** [isElement] returns a boolean exactly on the truthy values and on
    [false]. *)
Lemma isElement_boolean_iff (h : heap) (v : value) :
  is_boolean (isElement h v) ↔ truthy v = true ∨ v = VBool false.
Proof.
  destruct (truthy v) eqn:Hv.
  - split; [by left | intros _; by apply isElement_truthy].
  - rewrite (isElement_falsy h v Hv). split.
    + intros [b ->]. right. cbn in Hv. by subst b.
    + intros [?| ->]; [done | by exists false].
Qed.

(** C7: the eight predicates return a boolean for every value.  The seven
    that are comparisons do; [isElement] is documented to return a Boolean
    but returns its argument when that is falsy: [isElement(null)] is
    [null]. *)
Theorem isElement_null_not_boolean :
  ∀ h : heap,
    isElement h VNull = VNull ∧
    ¬ is_boolean (isElement h VNull) ∧
    isElement h VUndefined = VUndefined ∧
    isElement h (VNum (Finite 0)) = VNum (Finite 0) ∧
    isElement h (VStr "") = VStr "".
Proof.
  intros h. repeat split; try reflexivity.
  intros [b Hb]. discriminate.
Qed.

(** ** [bind] and [rbind] *)

Section binding.
Context {R : Type} (call_of : loc → value → list value → R).

(** The callable of [bind] puts the partial arguments first. *)
Lemma bind_prepends (native : bool) (f : loc) (context : value)
    (args callArgs : list value) (this : value) :
  ∃ g, bind call_of native (VFun f :: context :: args) = Normal g ∧
       g this callArgs = Normal (call_of f context (args ++ callArgs)).
Proof.
  unfold bind. cbn. destruct native.
  - eexists. split; reflexivity.
  - unfold bindWithoutNative_. destruct args as [|a args]; cbn.
    + eexists. split; reflexivity.
    + eexists. split; reflexivity.
Qed.

(** The callable of [rbind] puts the partial arguments last. *)
Lemma rbind_appends (f : loc) (context : value)
    (args callArgs : list value) (this : value) :
  ∃ g, rbind call_of (VFun f :: context :: args) = Normal g ∧
       g this callArgs = Normal (call_of f context (callArgs ++ args)).
Proof.
  unfold rbind. cbn. destruct args as [|a args]; cbn.
  - eexists. split; [reflexivity|]. cbn. by rewrite app_nil_r.
  - eexists. split; reflexivity.
Qed.





End binding.

(** C5: [bind(fn, ctx, a)(b)] calls [fn] with receiver [ctx] and arguments
    [a, b], with or without a native [bind]; [rbind(fn, ctx, a)(b)] calls it
    with receiver [ctx] and arguments [b, a].  The receiver the returned
    callable is itself called with plays no part. *)
Theorem bind_rbind_argument_order :
  ∀ (R : Type) (call_of : loc → value → list value → R) (native : bool)
    (fn : loc) (ctx a b this : value),
    (∃ g, bind call_of native [VFun fn; ctx; a] = Normal g ∧
          g this [b] = Normal (call_of fn ctx [a; b])) ∧
    (∃ g, rbind call_of [VFun fn; ctx; a] = Normal g ∧
          g this [b] = Normal (call_of fn ctx [b; a])).
Proof.
  intros R call_of native fn ctx a b this. split.
  - apply (bind_prepends call_of native fn ctx [a] [b] this).
  - apply (rbind_appends call_of fn ctx [a] [b] this).
Qed.




(** ** [getUid] *)

Lemma uid_inv_fresh : uid_inv fresh_uid_state.
Proof. split; [done|]. intros l u Hl. cbn in Hl. by rewrite lookup_empty in Hl. Qed.

Lemma getUid_no_argument (s : uid_state) :
  getUid VUndefined s = (post_increment s, Normal (uniqueIdCounter_ s)).
Proof. reflexivity. Qed.

Lemma getUid_falsy_argument (v : value) (s : uid_state) :
  truthy v = false →
  getUid v s = (post_increment s, Normal (uniqueIdCounter_ s)).
Proof. intros Hv. unfold getUid. by rewrite Hv. Qed.

















(** C10: a falsy argument is treated as no argument: the counter is
    incremented, its old value is returned, no slot is written, and the same
    falsy value passed again gets the next integer. *)
Theorem getUid_falsy_like_no_argument :
  ∀ (v : value) (s : uid_state),
    truthy v = false →
    getUid v s = getUid VUndefined s ∧
    getUid v s = (post_increment s, Normal (uniqueIdCounter_ s)) ∧
    uid_property (getUid v s).1 = uid_property s ∧
    (getUid v (getUid v s).1).2 = Normal (uniqueIdCounter_ s + 1) ∧
    uniqueIdCounter_ s + 1 ≠ uniqueIdCounter_ s.
Proof.
  intros v s Hv. rewrite !(getUid_falsy_argument v _ Hv), getUid_no_argument.
  cbn. split_and!; try done. lia.
Qed.

Lemma getUid_falsy_like_no_argument_witness :
  truthy (VNum (Finite 0)) = false ∧
  truthy (VStr "") = false ∧
  truthy (VBool false) = false ∧
  truthy VNull = false ∧
  getUid (VNum (Finite 0)) fresh_uid_state = getUid VUndefined fresh_uid_state ∧
  (getUid (VStr "") (getUid (VStr "") fresh_uid_state).1).2 = Normal 2.
Proof.
  assert (Hzero : truthy (VNum (Finite 0)) = false) by reflexivity.
  assert (Hempty : truthy (VStr "") = false) by reflexivity.
  pose proof (getUid_falsy_like_no_argument _ fresh_uid_state Hzero) as (Hsame & _).
  pose proof (getUid_falsy_like_no_argument _ fresh_uid_state Hempty)
    as (_ & _ & _ & Hnext & _).
  split_and!; [exact Hzero | exact Hempty | reflexivity | reflexivity
              | exact Hsame | exact Hnext].
Defined.

(** ** [removeListener] *)

Lemma array_remove_head (l : loc) (rest : list loc) :
  array_remove (l :: rest) l = rest.
Proof. cbn. by rewrite decide_True. Qed.

Lemma array_remove_absent (arr : list loc) (l : loc) :
  l ∉ arr → array_remove arr l = arr.
Proof.
  induction arr as [|x arr IH]; [done|]. intros Hnot. cbn.
  rewrite decide_False.
  - f_equal. apply IH. intros Hin. apply Hnot. by right.
  - intros ->. apply Hnot. left.
Qed.

Lemma length_zero_nil {A} (xs : list A) :
  (length xs =? 0)%nat = true ↔ xs = [].
Proof. destruct xs; cbn; split; done. Qed.

(** What lines 37-40 leave under the key: the bucket without the listener,
    or nothing when that is empty. *)
Lemma remove_from_bucket_lookup (arr : gmap string (list loc)) (key : string)
    (l : loc) :
  remove_from_bucket arr key l !! key =
    match arr !! key with
    | Some bucket =>
        if (length (array_remove bucket l) =? 0)%nat then None
        else Some (array_remove bucket l)
    | None => None
    end.
Proof.
  unfold remove_from_bucket. destruct (arr !! key) as [bucket|] eqn:Hk.
  - rewrite lookup_insert_eq.
    destruct (length (array_remove bucket l) =? 0)%nat.
    + apply lookup_delete_eq.
    + apply lookup_insert_eq.
  - by rewrite Hk.
Qed.

Lemma remove_from_bucket_other (arr : gmap string (list loc)) (key key' : string)
    (l : loc) :
  key' ≠ key → remove_from_bucket arr key l !! key' = arr !! key'.
Proof.
  intros Hne. unfold remove_from_bucket.
  destruct (arr !! key) as [bucket|] eqn:Hk.
  - rewrite lookup_insert_eq.
    destruct (length (array_remove bucket l) =? 0)%nat.
    + rewrite lookup_delete_ne by done. by rewrite lookup_insert_ne.
    + by rewrite lookup_insert_ne.
  - by rewrite Hk.
Qed.

Lemma remove_from_bucket_missing (arr : gmap string (list loc)) (key : string)
    (l : loc) :
  arr !! key = None → remove_from_bucket arr key l = arr.
Proof. intros Hk. unfold remove_from_bucket. by rewrite !Hk. Qed.

Lemma remove_from_bucket_not_empty (arr : gmap string (list loc)) (key : string)
    (l : loc) :
  remove_from_bucket arr key l !! key ≠ Some [].
Proof.
  rewrite remove_from_bucket_lookup. destruct (arr !! key) as [bucket|]; [|done].
  destruct (length (array_remove bucket l) =? 0)%nat eqn:Hlen; [done|].
  intros [= Hnil]. by rewrite Hnil in Hlen.
Qed.

(** A handle without a string selector works on [listeners] and never
    throws. *)
Lemma removeListener_direct (h : handle) (r : registry) :
  isString (selector_ h) = false →
  removeListener h r =
    Normal {| listeners := remove_from_bucket (listeners r) (event_ h) (listener_ h);
              delegating := delegating r |}.
Proof. intros Hs. unfold removeListener. by rewrite Hs. Qed.

(** A handle with a string selector works on the selectors of its event's
    entry, which has to be there. *)
Lemma removeListener_delegated (h : handle) (r : registry) (d : delegate) :
  isString (selector_ h) = true → delegating r !! event_ h = Some d →
  removeListener h r =
    Normal {| listeners := listeners r;
              delegating :=
                <[event_ h :=
                    {| selectors :=
                         remove_from_bucket (selectors d)
                           (property_key (selector_ h)) (listener_ h) |}]>
                  (delegating r) |}.
Proof. intros Hs Hd. unfold removeListener. by rewrite Hs, Hd. Qed.

Lemma removeListener_delegated_missing (h : handle) (r : registry) :
  isString (selector_ h) = true → delegating r !! event_ h = None →
  removeListener h r = Throw TypeError.
Proof. intros Hs Hd. unfold removeListener. by rewrite Hs, Hd. Qed.

(** Where the mapping is there and the bucket is not, nothing is removed
    and nothing is raised. *)
Lemma removeListener_missing_bucket (h : handle) (r : registry) :
  bucket_of h r = None →
  (isString (selector_ h) = true → is_Some (delegating r !! event_ h)) →
  removeListener h r = Normal r.
Proof.
  intros Hb Hd. unfold bucket_of in Hb. destruct r as [ls dg]. cbn in *.
  destruct (isString (selector_ h)) eqn:Hs.
  - destruct (Hd eq_refl) as [d Hd'].
    rewrite (removeListener_delegated h (Registry ls dg) d Hs Hd'). cbn.
    rewrite Hd' in Hb. cbn in Hb.
    rewrite (remove_from_bucket_missing _ _ _ Hb).
    destruct d as [sel]. cbn. by rewrite insert_id.
  - rewrite (removeListener_direct h (Registry ls dg) Hs). cbn.
    by rewrite (remove_from_bucket_missing _ _ _ Hb).
Qed.

(** C1: removing where the keyed bucket does not exist is a silent no-op,
    with or without a selector.  For a handle with a selector on a registry
    without an entry for the event under [delegating], the code reads
    [selectors] off [undefined] and throws; the handle without a selector on
    the same registry is the no-op. *)
Theorem removeListener_selector_missing_event_throws :
  ∀ emitter listener : loc,
    bucket_of (DomDelegatedEventHandle emitter "click" listener (VStr ".item"))
      empty_registry = None ∧
    removeListener (DomDelegatedEventHandle emitter "click" listener (VStr ".item"))
      empty_registry = Throw TypeError ∧
    removeListener (DomDelegatedEventHandle emitter "click" listener VUndefined)
      empty_registry = Normal empty_registry.
Proof.
  intros emitter listener. split_and!.
  - reflexivity.
  - apply removeListener_delegated_missing; [reflexivity|]. apply lookup_empty.
  - apply removeListener_missing_bucket; [apply lookup_empty | discriminate].
Qed.

(** C2: with [listeners['click'] = [L1, L2]], [removeListener()] on the
    handle for [L1] without a selector leaves [listeners['click'] = [L2]]
    and changes nothing else in the registry. *)
Theorem removeListener_direct_first_of_two :
  ∀ (r : registry) (emitter L1 L2 : loc),
    listeners r !! "click" = Some [L1; L2] →
    ∃ r',
      removeListener (DomDelegatedEventHandle emitter "click" L1 VUndefined) r
        = Normal r' ∧
      listeners r' !! "click" = Some [L2] ∧
      (∀ event, event ≠ "click" → listeners r' !! event = listeners r !! event) ∧
      delegating r' = delegating r.
Proof.
  intros r emitter L1 L2 Hclick. eexists. split.
  - by apply removeListener_direct.
  - cbn. split_and!; [| |done].
    + rewrite remove_from_bucket_lookup, Hclick.
      by rewrite array_remove_head.
    + intros event Hne. by apply remove_from_bucket_other.
Qed.

Lemma removeListener_direct_first_of_two_witness :
  ∃ r',
    removeListener (DomDelegatedEventHandle 0%nat "click" 1%nat VUndefined)
      {| listeners := {["click" := [1%nat; 2%nat]]}; delegating := ∅ |}
      = Normal r' ∧
    listeners r' !! "click" = Some [2%nat] ∧
    (∀ event, event ≠ "click" →
       listeners r' !! event
         = ({["click" := [1%nat; 2%nat]]} : gmap string (list loc)) !! event) ∧
    delegating r' = ∅.
Proof.
  destruct (removeListener_direct_first_of_two
              {| listeners := {["click" := [1%nat; 2%nat]]}; delegating := ∅ |}
              0%nat 1%nat 2%nat)
    as (r' & Hrm & Hclick & Hother & Hdelegating).
  - cbn. apply lookup_singleton_eq.
  - exists r'. split_and!; [exact Hrm | exact Hclick | exact Hother | exact Hdelegating].
Defined.

(** C3: after [removeListener()] the bucket of the handle is never left
    empty: a bucket that the removal empties is deleted.  With
    [delegating['click'].selectors['.item'] = [L1]], removing [L1] deletes
    the key ['.item'] from [selectors]. *)
Theorem removeListener_prunes_empty_bucket :
  (∀ (h : handle) (r r' : registry),
     removeListener h r = Normal r' → bucket_of h r' ≠ Some []) ∧
  (∀ (h : handle) (r r' : registry) (bucket : list loc),
     removeListener h r = Normal r' →
     bucket_of h r = Some bucket →
     array_remove bucket (listener_ h) = [] →
     bucket_of h r' = None) ∧
  (∀ (r : registry) (d : delegate) (emitter L1 : loc),
     delegating r !! "click" = Some d →
     selectors d !! ".item" = Some [L1] →
     ∃ r' d',
       removeListener (DomDelegatedEventHandle emitter "click" L1 (VStr ".item")) r
         = Normal r' ∧
       delegating r' !! "click" = Some d' ∧
       selectors d' !! ".item" = None).
Proof.
  split_and!.
  - intros h r r' Hrm. unfold bucket_of.
    destruct (isString (selector_ h)) eqn:Hs.
    + destruct (delegating r !! event_ h) as [d|] eqn:Hd.
      * rewrite (removeListener_delegated h r d Hs Hd) in Hrm.
        injection Hrm as <-. cbn. rewrite lookup_insert_eq. cbn.
        apply remove_from_bucket_not_empty.
      * by rewrite (removeListener_delegated_missing h r Hs Hd) in Hrm.
    + rewrite (removeListener_direct h r Hs) in Hrm. injection Hrm as <-. cbn.
      apply remove_from_bucket_not_empty.
  - intros h r r' bucket Hrm Hb Hempty. unfold bucket_of in *.
    destruct (isString (selector_ h)) eqn:Hs.
    + destruct (delegating r !! event_ h) as [d|] eqn:Hd; [|done].
      rewrite (removeListener_delegated h r d Hs Hd) in Hrm.
      injection Hrm as <-. cbn in *. rewrite lookup_insert_eq. cbn.
      by rewrite remove_from_bucket_lookup, Hb, Hempty.
    + rewrite (removeListener_direct h r Hs) in Hrm. injection Hrm as <-. cbn.
      by rewrite remove_from_bucket_lookup, Hb, Hempty.
  - intros r d emitter L1 Hd Hitem. eexists _, _. split_and!.
    + by apply (removeListener_delegated _ r d).
    + cbn. apply lookup_insert_eq.
    + cbn. by rewrite remove_from_bucket_lookup, Hitem, array_remove_head.
Qed.

Lemma removeListener_prunes_empty_bucket_witness :
  ∃ r' d',
    removeListener (DomDelegatedEventHandle 0%nat "click" 1%nat (VStr ".item"))
      {| listeners := ∅;
         delegating := {["click" := {| selectors := {[".item" := [1%nat]]} |}]} |}
      = Normal r' ∧
    delegating r' !! "click" = Some d' ∧
    selectors d' !! ".item" = None ∧
    bucket_of (DomDelegatedEventHandle 0%nat "click" 1%nat (VStr ".item")) r'
      ≠ Some [].
Proof.
  pose proof removeListener_prunes_empty_bucket as (Hnever & _ & Hitem).
  destruct (Hitem
              {| listeners := ∅;
                 delegating := {["click" := {| selectors := {[".item" := [1%nat]]} |}]} |}
              {| selectors := {[".item" := [1%nat]]} |} 0%nat 1%nat)
    as (r' & d' & Hrm & Hd' & Hgone).
  - cbn. apply lookup_singleton_eq.
  - cbn. apply lookup_singleton_eq.
  - exists r', d'. split_and!; [done | done | done |].
    by apply (Hnever _ _ _ Hrm).
Defined.

(** C9: [removeListener()] on a handle with a string selector leaves
    [listeners] as it is, keeps every entry of [delegating] (the entry of
    its event too, also with no selector left in it), leaves the other
    entries as they are, and within its event's entry changes no selector
    but its own. *)
Theorem removeListener_selector_frame :
  (∀ (h : handle) (r r' : registry),
     isString (selector_ h) = true →
     removeListener h r = Normal r' →
     listeners r' = listeners r ∧
     dom (delegating r') = dom (delegating r) ∧
     (∀ event, event ≠ event_ h →
        delegating r' !! event = delegating r !! event) ∧
     ∃ d d',
       delegating r !! event_ h = Some d ∧
       delegating r' !! event_ h = Some d' ∧
       ∀ selector, selector ≠ property_key (selector_ h) →
         selectors d' !! selector = selectors d !! selector) ∧
  (∀ emitter L1 : loc,
     removeListener (DomDelegatedEventHandle emitter "click" L1 (VStr ".item"))
       {| listeners := ∅;
          delegating := {["click" := {| selectors := {[".item" := [L1]]} |}]} |}
     = Normal {| listeners := ∅;
                 delegating := {["click" := {| selectors := ∅ |}]} |}).
Proof.
  split.
  - intros h r r' Hs Hrm.
    destruct (delegating r !! event_ h) as [d|] eqn:Hd.
    + rewrite (removeListener_delegated h r d Hs Hd) in Hrm.
      injection Hrm as <-. cbn. split_and!.
      * done.
      * apply dom_insert_lookup_L. by rewrite Hd.
      * intros event Hne. by rewrite lookup_insert_ne.
      * eexists d, _. split_and!; [done | apply lookup_insert_eq |].
        intros selector Hne. cbn. by apply remove_from_bucket_other.
    + by rewrite (removeListener_delegated_missing h r Hs Hd) in Hrm.
  - intros emitter L1.
    rewrite (removeListener_delegated _ _ {| selectors := {[".item" := [L1]]} |});
      [| reflexivity | cbn; apply lookup_singleton_eq].
    cbn. unfold remove_from_bucket.
    rewrite lookup_singleton_eq, array_remove_head, lookup_insert_eq. cbn.
    rewrite delete_insert_eq, delete_singleton_eq.
    by rewrite insert_singleton_eq.
Qed.

Lemma removeListener_selector_frame_witness :
  ∃ r',
    removeListener (DomDelegatedEventHandle 0%nat "click" 1%nat (VStr ".item"))
      {| listeners := {["click" := [1%nat]]};
         delegating := {["click" := {| selectors := {[".item" := [1%nat]]} |}]} |}
      = Normal r' ∧
    listeners r' = {["click" := [1%nat]]} ∧
    dom (delegating r') = {["click"]}.
Proof.
  pose proof removeListener_selector_frame as (Hframe & _).
  eexists. split; [apply removeListener_delegated; [reflexivity|] |].
  - cbn. apply lookup_singleton_eq.
  - edestruct (Hframe
                 (DomDelegatedEventHandle 0%nat "click" 1%nat (VStr ".item"))
                 {| listeners := {["click" := [1%nat]]};
                    delegating :=
                      {["click" := {| selectors := {[".item" := [1%nat]]} |}]} |})
      as (Hls & Hdom & _).
    + reflexivity.
    + apply removeListener_delegated; [reflexivity|]. cbn. apply lookup_singleton_eq.
    + split; [exact Hls|]. rewrite Hdom. cbn. apply dom_singleton_L.
Defined.

(** ** [mergeSuperClassesProperty] *)

(** A child class at reference 0 whose [superClass_] is the prototype (at
    reference 10) of the parent class at reference 1: the values are
    collected child first. *)
Example collectSuperClassesProperty_child_parent :
  collectSuperClassesProperty 3
    {| objects :=
         {[0%nat := {["ATTRS" := VStr "child"; "superClass_" := VObj 10%nat]};
           10%nat := {["constructor" := VFun 1%nat]};
           1%nat := {["ATTRS" := VStr "parent"]}]};
       arrays := ∅;
       next_loc := 11%nat |}
    (VFun 0%nat) "ATTRS"
  = Some (Normal [VStr "child"; VStr "parent"]).
Proof. vm_compute. reflexivity. Qed.

(** With a truthy value under the cache key the call returns it: nothing is
    collected, no merge function is invoked, the store stays as it is. *)
Lemma mergeSuperClassesProperty_cached (merge_of : loc → loc → list value → value)
    (fuel : nat) (c : loc) (propertyName : string) (opt_mergeFn : value)
    (s : merge_state) :
  truthy (get_prop (st_heap s) c (propertyName ++ "_MERGED")) = true →
  mergeSuperClassesProperty merge_of fuel (VFun c) propertyName opt_mergeFn s
    = Some (s, Normal (get_prop (st_heap s) c (propertyName ++ "_MERGED"))).
Proof. intros Hc. unfold mergeSuperClassesProperty. cbn. by rewrite Hc. Qed.

Lemma get_set_prop (h : heap) (l : loc) (name : string) (v : value) :
  get_prop (set_prop h l name v) l name = v.
Proof.
  unfold get_prop, props_of, set_prop. cbn.
  rewrite lookup_insert_eq. cbn. by rewrite lookup_insert_eq.
Qed.

(** What a call returns is what is stored under the cache key after it. *)
Lemma mergeSuperClassesProperty_stores (merge_of : loc → loc → list value → value)
    (fuel : nat) (c : loc) (propertyName : string) (opt_mergeFn : value)
    (s s' : merge_state) (r : value) :
  mergeSuperClassesProperty merge_of fuel (VFun c) propertyName opt_mergeFn s
    = Some (s', Normal r) →
  get_prop (st_heap s') c (propertyName ++ "_MERGED") = r.
Proof.
  unfold mergeSuperClassesProperty. cbn.
  destruct (truthy (get_prop (st_heap s) c (propertyName ++ "_MERGED"))).
  - by intros [= <- <-].
  - destruct (collect_loop fuel (st_heap s) (VFun c) propertyName _)
      as [[propertyValues|e]|]; [|done..].
    destruct (truthy opt_mergeFn).
    + destruct opt_mergeFn; try done. by intros [= <- <-].
    + by intros [= <- <-].
Qed.

(** A call that returned a truthy value is not repeated: every later call,
    whatever merge function it is given, returns that value and changes
    nothing. *)
Lemma mergeSuperClassesProperty_truthy_once
    (merge_of : loc → loc → list value → value)
    (fuel fuel' : nat) (c : loc) (propertyName : string)
    (opt_mergeFn opt_mergeFn' : value) (s s' : merge_state) (r : value) :
  mergeSuperClassesProperty merge_of fuel (VFun c) propertyName opt_mergeFn s
    = Some (s', Normal r) →
  truthy r = true →
  mergeSuperClassesProperty merge_of fuel' (VFun c) propertyName opt_mergeFn' s'
    = Some (s', Normal r).
Proof.
  intros Hfirst Hr. apply mergeSuperClassesProperty_stores in Hfirst.
  subst r. by apply mergeSuperClassesProperty_cached.
Qed.

(** The first call, with nothing truthy under the cache key and a merge
    function: the super classes are collected once, the merge function is
    invoked once on the collected array, and its result is returned and is
    what the cache key then holds. *)
Lemma mergeSuperClassesProperty_computes
    (merge_of : loc → loc → list value → value)
    (fuel : nat) (c f : loc) (propertyName : string) (s : merge_state)
    (propertyValues : list value) :
  truthy (get_prop (st_heap s) c (propertyName ++ "_MERGED")) = false →
  collectSuperClassesProperty fuel (st_heap s) (VFun c) propertyName
    = Some (Normal propertyValues) →
  ∃ s',
    mergeSuperClassesProperty merge_of fuel (VFun c) propertyName (VFun f) s
      = Some (s', Normal (merge_of f (next_loc (st_heap s)) propertyValues)) ∧
    get_prop (st_heap s') c (propertyName ++ "_MERGED")
      = merge_of f (next_loc (st_heap s)) propertyValues ∧
    arrays (st_heap s') !! next_loc (st_heap s) = Some propertyValues ∧
    collections s' = S (collections s) ∧
    merge_invocations s' = S (merge_invocations s).
Proof.
  intros Hc Hcollect. unfold mergeSuperClassesProperty.
  cbn [read_prop]. rewrite Hc, Hcollect. cbn.
  eexists. split; [by rewrite get_set_prop|]. cbn.
  split_and!; [apply get_set_prop | apply lookup_insert_eq | done | done].
Qed.

(** Without a merge function the merged value is the collected array, which
    is truthy, so the second call is answered from the cache. *)
Lemma mergeSuperClassesProperty_no_merge_function_once
    (merge_of : loc → loc → list value → value)
    (fuel fuel' : nat) (c : loc) (propertyName : string)
    (opt_mergeFn opt_mergeFn' : value) (s s' : merge_state) (r : value) :
  truthy opt_mergeFn = false →
  mergeSuperClassesProperty merge_of fuel (VFun c) propertyName opt_mergeFn s
    = Some (s', Normal r) →
  truthy (get_prop (st_heap s) c (propertyName ++ "_MERGED")) = false →
  mergeSuperClassesProperty merge_of fuel' (VFun c) propertyName opt_mergeFn' s'
    = Some (s', Normal r).
Proof.
  intros Hfn Hfirst Hc.
  apply (mergeSuperClassesProperty_truthy_once _ _ _ _ _ _ _ _ _ _ Hfirst).
  unfold mergeSuperClassesProperty in Hfirst. cbn [read_prop] in Hfirst.
  rewrite Hc, Hfn in Hfirst.
  destruct (collectSuperClassesProperty fuel (st_heap s) (VFun c) propertyName)
    as [[propertyValues|e]|]; [|done..].
  cbn in Hfirst. injection Hfirst as _ <-. by rewrite get_set_prop.
Qed.

(** C8: the merged value is computed at most once per constructor.  The
    cache test is [if (constructor[mergedName])], so a merged value that is
    falsy is stored and still recomputed: with a merge function that
    returns 0, the first call stores 0 under ['ATTRS_MERGED'] after one
    collection and one invocation, and the second call collects and invokes
    the merge function again. *)
Theorem mergeSuperClassesProperty_falsy_recomputed :
  (λ '((s1, r1), (s2, r2)),
     (r1, props_of (st_heap s1) 0%nat !! "ATTRS_MERGED",
      collections s1, merge_invocations s1,
      r2, collections s2, merge_invocations s2))
    <$> merge_twice merge_to_zero 5 (VFun 0%nat) "ATTRS" (VFun 1%nat) one_class_state
  = Some (Normal (VNum (Finite 0)), Some (VNum (Finite 0)), 1%nat, 1%nat,
          Normal (VNum (Finite 0)), 2%nat, 2%nat).
Proof. vm_compute. reflexivity. Qed.

(** * Further properties of [core.js] *)

(** ** Type predicates *)

Lemma isObject_reference (v : value) :
  isObject v = true → ∃ l, v = VObj l ∨ v = VFun l.
Proof. destruct v; cbn; try discriminate; eauto. Qed.

(** X1: [isObject] holds exactly of the references, objects and functions;
    [null], whose [typeof] is ['object'], is excluded. *)
Theorem isObject_iff_reference :
  ∀ v : value, isObject v = true ↔ ∃ l, v = VObj l ∨ v = VFun l.
Proof.
  intros v. split.
  - apply isObject_reference.
  - intros [l [-> | ->]]; reflexivity.
Qed.

Lemma isObject_iff_reference_witness :
  isObject (VFun 3%nat) = true ∧ ¬ (∃ l, VNull = VObj l ∨ VNull = VFun l).
Proof.
  split.
  - apply (isObject_iff_reference (VFun 3%nat)). exists 3%nat. by right.
  - intros Hex. apply (isObject_iff_reference VNull) in Hex. discriminate.
Defined.

(** X2: of [isBoolean], [isString], [isFunction], [isNull] and "not
    [isDef]" at most one holds of a value, and none of them holds of a
    value that [isObject] accepts, except [isFunction]. *)
Theorem predicates_exclusive :
  ∀ v : value,
    (Nat.b2n (isBoolean v) + Nat.b2n (isString v) + Nat.b2n (isFunction v)
     + Nat.b2n (isNull v) + Nat.b2n (negb (isDef v)) ≤ 1)%nat ∧
    (isObject v = true →
     isBoolean v = false ∧ isString v = false ∧ isNull v = false ∧
     isDef v = true ∧ isDefAndNotNull v = true).
Proof.
  intros v. split.
  - destruct v; cbn; lia.
  - destruct v; cbn; try discriminate; done.
Qed.

Lemma predicates_exclusive_witness :
  isNull (VObj 0%nat) = false ∧ isDefAndNotNull (VObj 0%nat) = true.
Proof.
  destruct (predicates_exclusive (VObj 0%nat)) as (_ & H).
  destruct (H eq_refl) as (_ & _ & Hnull & _ & Hdef). by split.
Defined.

(** X3: used as a condition, [isElement] is the documented boolean: its
    result is truthy exactly when it is [true].  A value it accepts is an
    object and not a function, whatever [nodeType] a function carries. *)
Theorem isElement_as_condition :
  ∀ (h : heap) (v : value),
    (truthy (isElement h v) = true ↔ isElement h v = VBool true) ∧
    (isElement h v = VBool true → isObject v = true ∧ isFunction v = false).
Proof.
  intros h v. split.
  - split.
    + destruct (truthy v) eqn:Hv.
      * destruct (isElement_truthy h v Hv) as [b Hb]. rewrite Hb. cbn. by intros ->.
      * rewrite (isElement_falsy h v Hv). congruence.
    + by intros ->.
  - intros He. apply isElement_true_iff in He as (l & -> & _). done.
Qed.

Lemma isElement_as_condition_witness :
  isElement
    {| objects := {[4%nat := {["nodeType" := VNum (Finite 1)]}]};
       arrays := ∅; next_loc := 5%nat |} (VObj 4%nat) = VBool true ∧
  isObject (VObj 4%nat) = true.
Proof.
  pose proof (isElement_as_condition
                {| objects := {[4%nat := {["nodeType" := VNum (Finite 1)]}]};
                   arrays := ∅; next_loc := 5%nat |} (VObj 4%nat)) as ([_ Hto] & Hobj).
  assert (He : isElement
    {| objects := {[4%nat := {["nodeType" := VNum (Finite 1)]}]};
       arrays := ∅; next_loc := 5%nat |} (VObj 4%nat) = VBool true)
    by (vm_compute; reflexivity).
  split; [exact He|]. by destruct (Hobj He).
Defined.

(** ** [bind] and [rbind] *)

(** X4: for a function, [bind] over the native [Function.prototype.bind]
    and [bind] through the fallback give callables that behave alike on
    every call, whatever receiver they are called with. *)
Theorem bind_native_agrees_with_fallback :
  ∀ (R : Type) (call_of : loc → value → list value → R) (f : loc)
    (rest : list value),
    ∃ g1 g2,
      bind call_of true (VFun f :: rest) = Normal g1 ∧
      bind call_of false (VFun f :: rest) = Normal g2 ∧
      ∀ this1 this2 args, g1 this1 args = g2 this2 args.
Proof.
  intros R call_of f rest. unfold bind. cbn.
  eexists _, _. split_and!; [reflexivity | reflexivity |].
  intros this1 this2 args. unfold bindWithoutNative_.
  destruct rest as [|ctx [|a rest]]; reflexivity.
Qed.

(** X5: without partial arguments [bind] and [rbind] do the same: the
    call-time arguments are passed as they are, and the receiver is the
    context, [undefined] if none was given. *)
Theorem bind_rbind_without_partial_arguments :
  ∀ (R : Type) (call_of : loc → value → list value → R) (native : bool)
    (f : loc) (arguments : list value),
    argument arguments 0 = VFun f →
    (length arguments ≤ 2)%nat →
    ∃ g1 g2,
      bind call_of native arguments = Normal g1 ∧
      rbind call_of arguments = Normal g2 ∧
      ∀ this args,
        g1 this args = Normal (call_of f (argument arguments 1) args) ∧
        g2 this args = Normal (call_of f (argument arguments 1) args).
Proof.
  intros R call_of native f arguments Hf Hlen.
  destruct arguments as [|fn [|ctx [|a rest]]]; cbn in Hf, Hlen; try discriminate;
    try lia; subst fn.
  - destruct native; eexists _, _; split_and!; try reflexivity;
      intros this args; split; reflexivity.
  - destruct native; eexists _, _; split_and!; try reflexivity;
      intros this args; split; reflexivity.
Qed.

Lemma bind_rbind_without_partial_arguments_witness :
  ∃ g1 g2,
    bind (λ f this args, (f, this, args)) true [VFun 7%nat] = Normal g1 ∧
    rbind (λ f this args, (f, this, args)) [VFun 7%nat] = Normal g2 ∧
    g1 VNull [VStr "b"] = Normal (7%nat, VUndefined, [VStr "b"]) ∧
    g2 VNull [VStr "b"] = Normal (7%nat, VUndefined, [VStr "b"]).
Proof.
  destruct (bind_rbind_without_partial_arguments _ (λ f this args, (f, this, args))
              true 7%nat [VFun 7%nat]) as (g1 & g2 & H1 & H2 & Hcall).
  - reflexivity.
  - cbn. lia.
  - exists g1, g2. destruct (Hcall VNull [VStr "b"]) as [Hg1 Hg2].
    split_and!; [exact H1 | exact H2 | exact Hg1 | exact Hg2].
Defined.



(** X7: binding a bound function again cannot change its receiver, and the
    partial arguments add up in the order of the bindings: if the function
    object [g'] is the callable of [bind(f, ctx, ...args1)], the callable of
    [bind(g', ctx', ...args2)] calls [f] with receiver [ctx] and arguments
    [args1], [args2], then the call-time ones. *)
Theorem bind_twice_keeps_first_receiver :
  ∀ (R : Type) (call_of : loc → value → list value → R) (native1 native2 : bool)
    (f g' : loc) (ctx ctx' : value) (args1 args2 : list value)
    (g : callable R),
    bind call_of native1 (VFun f :: ctx :: args1) = Normal g →
    (∀ this args, g this args = Normal (call_of g' this args)) →
    ∃ g2,
      bind call_of native2 (VFun g' :: ctx' :: args2) = Normal g2 ∧
      ∀ this args,
        g2 this args = Normal (call_of f ctx (args1 ++ args2 ++ args)).
Proof.
  intros R call_of native1 native2 f g' ctx ctx' args1 args2 g Hg Hbehaves.
  destruct (bind_prepends call_of native2 g' ctx' args2 [] VNull) as (g2 & Hg2 & _).
  exists g2. split; [exact Hg2|]. intros this args.
  destruct (bind_prepends call_of native2 g' ctx' args2 args this)
    as (g2' & Hg2' & Hcall2).
  assert (g2' = g2) as -> by congruence.
  rewrite Hcall2, <- Hbehaves.
  destruct (bind_prepends call_of native1 f ctx args1 (args2 ++ args) ctx')
    as (g0 & Hg0 & Hcall1).
  assert (g0 = g) as -> by congruence.
  exact Hcall1.
Qed.

Lemma bind_twice_keeps_first_receiver_witness :
  ∃ g2,
    bind (λ (l : loc) this args,
            if (l =? 0)%nat then (this, args) else (VStr "ctx", VStr "a" :: args))
      true [VFun 1%nat; VStr "other"; VStr "b"] = Normal g2 ∧
    g2 VNull [VStr "c"] = Normal (VStr "ctx", [VStr "a"; VStr "b"; VStr "c"]).
Proof.
  destruct (bind_twice_keeps_first_receiver _
              (λ (l : loc) this args,
                 if (l =? 0)%nat then (this, args) else (VStr "ctx", VStr "a" :: args))
              false true 0%nat 1%nat (VStr "ctx") (VStr "other")
              [VStr "a"] [VStr "b"]
              (λ _ newArgs, Normal (VStr "ctx", VStr "a" :: newArgs)))
    as (g2 & Hg2 & Hcall).
  - reflexivity.
  - intros this args. reflexivity.
  - exists g2. split; [exact Hg2|]. apply (Hcall VNull [VStr "c"]).
Defined.

(** ** [getUid] *)

(** One call with any argument keeps the invariant and the distinctness of
    the stamps, keeps every stamp, and moves the counter up by one at
    most. *)
Lemma getUid_step_any (v : value) (s : uid_state) :
  uid_inv s → uid_injective s →
  uid_inv (getUid v s).1 ∧ uid_injective (getUid v s).1 ∧
  uniqueIdCounter_ s ≤ uniqueIdCounter_ (getUid v s).1 ≤ uniqueIdCounter_ s + 1 ∧
  (∀ l u, uid_property s !! l = Some u → uid_property (getUid v s).1 !! l = Some u).
Proof.
  intros Hinv Hinj. pose proof Hinv as [Hc Hs].
  assert (Hbump : uid_inv (post_increment s) ∧ uid_injective (post_increment s) ∧
                  uniqueIdCounter_ s ≤ uniqueIdCounter_ (post_increment s)
                    ≤ uniqueIdCounter_ s + 1 ∧
                  (∀ l u, uid_property s !! l = Some u →
                          uid_property (post_increment s) !! l = Some u)).
  { split_and!; cbn; try lia; try done.
    split; cbn; [lia|]. intros l u Hu. apply Hs in Hu. lia. }
  assert (Hstamp : ∀ l, uid_property s !! l = None ∨ uid_property s !! l = Some 0 →
            uid_inv (stamp l s).1 ∧ uid_injective (stamp l s).1 ∧
            uniqueIdCounter_ s ≤ uniqueIdCounter_ (stamp l s).1
              ≤ uniqueIdCounter_ s + 1 ∧
            (∀ l' u, uid_property s !! l' = Some u →
                     uid_property (stamp l s).1 !! l' = Some u)).
  { intros l Hl.
    assert (Hnone : uid_property s !! l = None).
    { destruct Hl as [Hl|Hl]; [done|]. apply Hs in Hl. lia. }
    unfold stamp. cbn. split_and!; try lia.
    - split; cbn; [lia|]. intros l' u.
      destruct (decide (l = l')) as [<-|Hne].
      + rewrite lookup_insert_eq. intros [= <-]. lia.
      + rewrite lookup_insert_ne by done. intros Hu. apply Hs in Hu. lia.
    - intros l1 l2 u. cbn. rewrite !lookup_insert.
      repeat case_decide; subst; try done.
      + intros [= <-] Hu. apply Hs in Hu. lia.
      + intros Hu [= <-]. apply Hs in Hu. lia.
      + apply Hinj.
    - intros l' u Hu. destruct (decide (l = l')) as [<-|Hne]; [congruence|].
      by rewrite lookup_insert_ne. }
  unfold getUid. destruct (truthy v); [|exact Hbump].
  destruct v as [| |b|n|str|l|l]; try exact Hbump.
  - destruct (uid_property s !! l) as [u|] eqn:Hl; [|apply Hstamp; by left].
    destruct (Z.eqb_spec u 0) as [->|Hu]; [apply Hstamp; by right|].
    cbn. split_and!; try done; lia.
  - destruct (uid_property s !! l) as [u|] eqn:Hl; [|apply Hstamp; by left].
    destruct (Z.eqb_spec u 0) as [->|Hu]; [apply Hstamp; by right|].
    cbn. split_and!; try done; lia.
Qed.

Lemma uid_exec_values_spec (calls : list value) (s : uid_state) :
  uid_inv s → uid_injective s →
  uid_inv (uid_exec_values calls s) ∧ uid_injective (uid_exec_values calls s) ∧
  uniqueIdCounter_ s ≤ uniqueIdCounter_ (uid_exec_values calls s)
    ≤ uniqueIdCounter_ s + Z.of_nat (length calls) ∧
  (∀ l u, uid_property s !! l = Some u →
          uid_property (uid_exec_values calls s) !! l = Some u).
Proof.
  revert s. induction calls as [|v calls IH]; intros s Hinv Hinj.
  - cbn. split_and!; try done; lia.
  - destruct (getUid_step_any v s Hinv Hinj) as (Hinv' & Hinj' & Hc & Hkeep).
    destruct (IH _ Hinv' Hinj') as (Hinv'' & Hinj'' & Hc' & Hkeep').
    cbn [uid_exec_values length]. split_and!; try done; try lia.
    intros l u Hu. by apply Hkeep', Hkeep.
Qed.

Lemma uid_injective_fresh : uid_injective fresh_uid_state.
Proof. intros l1 l2 u Hl. cbn in Hl. by rewrite lookup_empty in Hl. Qed.

(** X8: after any sequence of calls from the fresh state, with arguments of
    any kind, no two objects carry the same stamp, every stamp is a positive
    integer below the counter, and the counter has moved up by one per call
    at most. *)
Theorem getUid_stamps_distinct :
  ∀ calls : list value,
    uid_injective (uid_exec_values calls fresh_uid_state) ∧
    (∀ l u, uid_property (uid_exec_values calls fresh_uid_state) !! l = Some u →
            1 ≤ u < uniqueIdCounter_ (uid_exec_values calls fresh_uid_state)) ∧
    1 ≤ uniqueIdCounter_ (uid_exec_values calls fresh_uid_state)
      ≤ 1 + Z.of_nat (length calls).
Proof.
  intros calls.
  destruct (uid_exec_values_spec calls _ uid_inv_fresh uid_injective_fresh)
    as ([_ Hs] & Hinj & Hc & _).
  cbn in Hc. split_and!; [done | done | lia | lia].
Qed.

Lemma getUid_stamps_distinct_witness :
  uid_property (uid_exec_values [VObj 4%nat; VNum (Finite 2); VFun 9%nat; VNull]
                  fresh_uid_state) !! 9%nat = Some 3 ∧
  1 ≤ 3 < uniqueIdCounter_
            (uid_exec_values [VObj 4%nat; VNum (Finite 2); VFun 9%nat; VNull]
               fresh_uid_state).
Proof.
  assert (H9 : uid_property
                 (uid_exec_values [VObj 4%nat; VNum (Finite 2); VFun 9%nat; VNull]
                    fresh_uid_state) !! 9%nat = Some 3)
    by (vm_compute; reflexivity).
  split; [exact H9|].
  destruct (getUid_stamps_distinct [VObj 4%nat; VNum (Finite 2); VFun 9%nat; VNull])
    as (_ & Hbound & _).
  exact (Hbound _ _ H9).
Defined.

(** X9: the uid of an object is stable: once [getUid] has returned it, then
    after any further calls with any arguments [getUid] returns it again for
    that object and changes neither the counter nor a slot. *)
Theorem getUid_object_uid_stable :
  ∀ (before after : list value) (v : value) (u : Z),
    isObject v = true →
    (getUid v (uid_exec_values before fresh_uid_state)).2 = Normal u →
    let s := uid_exec_values after
               (getUid v (uid_exec_values before fresh_uid_state)).1 in
    getUid v s = (s, Normal u).
Proof.
  intros before after v u Hobj Hu s.
  destruct (uid_exec_values_spec before _ uid_inv_fresh uid_injective_fresh)
    as (Hinv0 & Hinj0 & _).
  destruct (getUid_step_any v _ Hinv0 Hinj0) as (Hinv1 & Hinj1 & _ & _).
  destruct (uid_exec_values_spec after _ Hinv1 Hinj1) as (Hinv2 & _ & _ & Hkeep).
  apply isObject_reference in Hobj as [l Hv].
  set (s0 := uid_exec_values before fresh_uid_state) in *.
  assert (Hstamped : uid_property (getUid v s0).1 !! l = Some u).
  { pose proof Hinv0 as [_ Hs0].
    destruct Hv as [-> | ->]; unfold getUid in *; cbn in *;
      (destruct (uid_property s0 !! l) as [u0|] eqn:Hl;
       [ destruct (Z.eqb_spec u0 0) as [->|Hne];
         [ cbn in *; injection Hu as <-; apply lookup_insert_eq
         | cbn in *; by injection Hu as <- ]
       | cbn in *; injection Hu as <-; apply lookup_insert_eq ]). }
  apply Hkeep in Hstamped. fold s in Hstamped, Hinv2.
  assert (Hnz : (u =? 0) = false).
  { destruct Hinv2 as [_ Hs2]. apply Hs2 in Hstamped. apply Z.eqb_neq. lia. }
  destruct Hv as [-> | ->]; unfold getUid; cbn; by rewrite Hstamped, Hnz.
Qed.

Lemma getUid_object_uid_stable_witness :
  getUid (VFun 9%nat)
    (uid_exec_values [VNull; VObj 2%nat]
       (getUid (VFun 9%nat) (uid_exec_values [VObj 4%nat] fresh_uid_state)).1)
  = (uid_exec_values [VNull; VObj 2%nat]
       (getUid (VFun 9%nat) (uid_exec_values [VObj 4%nat] fresh_uid_state)).1,
     Normal 2).
Proof.
  apply (getUid_object_uid_stable [VObj 4%nat] [VNull; VObj 2%nat] (VFun 9%nat) 2).
  - reflexivity.
  - vm_compute. reflexivity.
Defined.

Lemma uid_run_no_argument (n : nat) (s : uid_state) :
  uid_run (replicate n None) s
  = (λ k, Normal (uniqueIdCounter_ s + Z.of_nat k)) <$> seq 0 n.
Proof.
  revert s. induction n as [|n IH]; intros s; [done|].
  cbn [replicate uid_run uid_argument]. rewrite getUid_no_argument, IH.
  cbn [seq fmap list_fmap]. f_equal; [f_equal; lia|].
  rewrite <- seq_shift, <- list_fmap_compose.
  apply list_fmap_ext. intros _ k _. cbn. f_equal. lia.
Qed.

(** X10: uids are handed out without gaps: of [n] calls without an
    argument from the fresh state, the [k]-th returns [k]. *)
Theorem getUid_no_argument_consecutive :
  ∀ n : nat,
    uid_run (replicate n None) fresh_uid_state
    = (λ k, Normal (Z.of_nat k)) <$> seq 1 n.
Proof.
  intros n. rewrite uid_run_no_argument, <- seq_shift, <- list_fmap_compose.
  apply list_fmap_ext. intros _ k _. cbn. f_equal. lia.
Qed.

(** X11: a truthy primitive cannot be stamped: the call throws a
    [TypeError] (the file is strict code), and the integer it was about to
    use is spent, the next call gets the one after it. *)
Theorem getUid_truthy_primitive_throws :
  ∀ (v : value) (s : uid_state),
    truthy v = true → isObject v = false →
    (getUid v s).2 = Throw TypeError ∧
    uid_property (getUid v s).1 = uid_property s ∧
    (getUid VUndefined (getUid v s).1).2 = Normal (uniqueIdCounter_ s + 1).
Proof.
  intros v s Ht Hobj. unfold getUid at 1 2 4. rewrite Ht.
  destruct v; try discriminate; done.
Qed.

Lemma getUid_truthy_primitive_throws_witness :
  (getUid (VStr "id") fresh_uid_state).2 = Throw TypeError ∧
  (getUid VUndefined (getUid (VStr "id") fresh_uid_state).1).2 = Normal 2.
Proof.
  destruct (getUid_truthy_primitive_throws (VStr "id") fresh_uid_state)
    as (Hthrow & _ & Hnext); [reflexivity | reflexivity |].
  split; [exact Hthrow | exact Hnext].
Defined.

(** ** [collectSuperClassesProperty] *)

(** The values collected so far are a prefix of the result and play no
    other part in the loop. *)
Lemma collect_loop_acc (fuel : nat) (h : heap) (c : value) (name : string)
    (acc : list value) :
  collect_loop fuel h c name acc =
    match collect_loop fuel h c name [] with
    | Some (Normal vs) => Some (Normal (acc ++ vs))
    | Some (Throw e) => Some (Throw e)
    | None => None
    end.
Proof.
  revert c acc. induction fuel as [|fuel IH]; intros c acc; [done|].
  cbn [collect_loop].
  destruct (read_prop h c "superClass_") as [sc|e]; [|done].
  destruct (truthy sc); [|by rewrite app_nil_r].
  destruct (read_prop h sc "constructor") as [c'|e]; [|done].
  destruct (read_prop h c' name) as [v|e]; [|done].
  rewrite (IH c' (acc ++ [v])), (IH c' ([] ++ [v])).
  destruct (collect_loop fuel h c' name []) as [[vs|e]|]; [|done..].
  by rewrite <- !app_assoc.
Qed.


Lemma collect_loop_length (fuel : nat) (h : heap) (c : value) (name : string)
    (acc vs : list value) :
  collect_loop fuel h c name acc = Some (Normal vs) →
  (length vs < length acc + fuel)%nat ∧ ∃ rest, vs = acc ++ rest.
Proof.
  revert c acc. induction fuel as [|fuel IH]; intros c acc; [done|].
  cbn [collect_loop].
  destruct (read_prop h c "superClass_") as [sc|e]; [|done].
  destruct (truthy sc).
  - destruct (read_prop h sc "constructor") as [c'|e]; [|done].
    destruct (read_prop h c' name) as [v|e]; [|done].
    intros Hr. apply IH in Hr as [Hlen [rest ->]].
    split; [rewrite !length_app in *; cbn in *; lia|].
    exists (v :: rest). by rewrite <- app_assoc.
  - intros [= <-]. split; [lia|]. exists []. by rewrite app_nil_r.
Qed.



(** X13: what is collected is never empty: it starts with the
    constructor's own value ([undefined] if it has none), and for a
    constructor without a truthy [superClass_] that is all of it. *)
Theorem collectSuperClassesProperty_shape :
  ∀ (fuel : nat) (h : heap) (c : loc) (propertyName : string),
    (∀ vs, collectSuperClassesProperty fuel h (VFun c) propertyName
             = Some (Normal vs) →
           ∃ rest, vs = get_prop h c propertyName :: rest) ∧
    (truthy (get_prop h c "superClass_") = false →
     collectSuperClassesProperty (S fuel) h (VFun c) propertyName
       = Some (Normal [get_prop h c propertyName])).
Proof.
  intros fuel h c name. unfold collectSuperClassesProperty. cbn [read_prop]. split.
  - intros vs Hvs. apply collect_loop_length in Hvs as [_ [rest ->]]. cbn. eauto.
  - intros Hsc. cbn. by rewrite Hsc.
Qed.

Lemma collectSuperClassesProperty_shape_witness :
  collectSuperClassesProperty 1 (Heap ∅ ∅ 1%nat) (VFun 0%nat) "ATTRS"
    = Some (Normal [VUndefined]).
Proof.
  destruct (collectSuperClassesProperty_shape 0 (Heap ∅ ∅ 1%nat) 0%nat "ATTRS")
    as [_ Hone].
  apply Hone. reflexivity.
Defined.

(** X14: a chain that leads back to the class never ends: when the
    [constructor] of a class's [superClass_] is the class itself, the
    collection finishes with no amount of fuel. *)
Theorem collectSuperClassesProperty_cycle :
  ∀ (h : heap) (c : loc) (superClass_ : value) (propertyName : string),
    get_prop h c "superClass_" = superClass_ →
    truthy superClass_ = true →
    read_prop h superClass_ "constructor" = Normal (VFun c) →
    ∀ fuel, collectSuperClassesProperty fuel h (VFun c) propertyName = None.
Proof.
  intros h c sc name Hsc Ht Hback fuel.
  unfold collectSuperClassesProperty. cbn [read_prop].
  generalize [get_prop h c name] as acc.
  induction fuel as [|fuel IH]; intros acc; [done|].
  cbn [collect_loop read_prop]. rewrite Hsc, Ht, Hback. cbn [read_prop]. apply IH.
Qed.

Lemma collectSuperClassesProperty_cycle_witness :
  collectSuperClassesProperty 1000
    {| objects := {[0%nat := {["superClass_" := VObj 1%nat]};
                    1%nat := {["constructor" := VFun 0%nat]}]};
       arrays := ∅; next_loc := 2%nat |}
    (VFun 0%nat) "ATTRS" = None.
Proof.
  apply (collectSuperClassesProperty_cycle _ 0%nat (VObj 1%nat));
    vm_compute; reflexivity.
Defined.

Lemma collect_superclass_step (fuel : nat) (h : heap) (c : loc)
    (superClass_ parent : value) (propertyName : string) :
  get_prop h c "superClass_" = superClass_ →
  truthy superClass_ = true →
  read_prop h superClass_ "constructor" = Normal parent →
  collectSuperClassesProperty (S fuel) h (VFun c) propertyName =
    match collectSuperClassesProperty fuel h parent propertyName with
    | Some (Normal vs) => Some (Normal (get_prop h c propertyName :: vs))
    | Some (Throw e) => Some (Throw e)
    | None => None
    end.
Proof.
  intros Hsc Ht Hparent.
  unfold collectSuperClassesProperty. cbn [read_prop collect_loop].
  rewrite Hsc, Ht, Hparent.
  destruct (read_prop h parent propertyName) as [v|e]; [|done].
  rewrite collect_loop_acc. rewrite (collect_loop_acc fuel h parent propertyName [v]).
  destruct (collect_loop fuel h parent propertyName []) as [[vs|e]|]; done.
Qed.

(** X15: the collection follows the classes: for a class whose
    [superClass_] is truthy, it is the class's own value followed by the
    collection of the [constructor] of that [superClass_]. *)
Theorem collectSuperClassesProperty_step :
  ∀ (fuel : nat) (h : heap) (c : loc) (superClass_ parent : value)
    (propertyName : string),
    get_prop h c "superClass_" = superClass_ →
    truthy superClass_ = true →
    read_prop h superClass_ "constructor" = Normal parent →
    collectSuperClassesProperty (S fuel) h (VFun c) propertyName =
      match collectSuperClassesProperty fuel h parent propertyName with
      | Some (Normal vs) => Some (Normal (get_prop h c propertyName :: vs))
      | Some (Throw e) => Some (Throw e)
      | None => None
      end.
Proof.
  intros fuel h c sc parent name Hsc Ht Hparent.
  by apply (collect_superclass_step fuel h c sc parent name).
Qed.

Lemma collectSuperClassesProperty_step_witness :
  collectSuperClassesProperty 3
    {| objects :=
         {[0%nat := {["ATTRS" := VStr "child"; "superClass_" := VObj 10%nat]};
           10%nat := {["constructor" := VFun 1%nat]};
           1%nat := {["ATTRS" := VStr "parent"]}]};
       arrays := ∅;
       next_loc := 11%nat |}
    (VFun 0%nat) "ATTRS"
  = Some (Normal [VStr "child"; VStr "parent"]).
Proof.
  rewrite (collectSuperClassesProperty_step 2 _ 0%nat (VObj 10%nat) (VFun 1%nat));
    vm_compute; reflexivity.
Defined.

(** ** [mergeSuperClassesProperty] *)

Lemma get_set_prop_other (h : heap) (l l' : loc) (name name' : string) (v : value) :
  l ≠ l' ∨ name ≠ name' →
  get_prop (set_prop h l name v) l' name' = get_prop h l' name'.
Proof.
  intros Hne. unfold get_prop, props_of, set_prop. cbn.
  destruct (decide (l = l')) as [<-|Hl].
  - rewrite lookup_insert_eq. cbn. rewrite lookup_insert_ne; [done|]. by destruct Hne.
  - by rewrite lookup_insert_ne.
Qed.

(** X16: a merged value that is truthy is computed once: after the call
    that returned it, a call for the same constructor and property returns
    it and leaves the store and both counters alone, whatever merge function
    and fuel it is given. *)
Theorem mergeSuperClassesProperty_memoized :
  ∀ (merge_of : loc → loc → list value → value) (fuel fuel' : nat) (c : loc)
    (propertyName : string) (opt_mergeFn opt_mergeFn' : value)
    (s s' : merge_state) (r : value),
    mergeSuperClassesProperty merge_of fuel (VFun c) propertyName opt_mergeFn s
      = Some (s', Normal r) →
    truthy r = true →
    mergeSuperClassesProperty merge_of fuel' (VFun c) propertyName opt_mergeFn' s'
      = Some (s', Normal r).
Proof.
  intros merge_of fuel fuel' c name fn fn' s s' r Hfirst Hr.
  apply mergeSuperClassesProperty_stores in Hfirst. subst r.
  by apply mergeSuperClassesProperty_cached.
Qed.

Lemma mergeSuperClassesProperty_memoized_witness :
  ∃ s' arr,
    mergeSuperClassesProperty merge_to_zero 5 (VFun 0%nat) "ATTRS" VUndefined
      one_class_state = Some (s', Normal (VObj arr)) ∧
    mergeSuperClassesProperty merge_to_zero 0 (VFun 0%nat) "ATTRS" (VFun 1%nat) s'
      = Some (s', Normal (VObj arr)).
Proof.
  eexists _, _. split; [vm_compute; reflexivity|].
  apply (mergeSuperClassesProperty_memoized merge_to_zero 5 0 0%nat "ATTRS"
           VUndefined (VFun 1%nat) one_class_state);
    [vm_compute; reflexivity | reflexivity].
Defined.

(** X17: a call writes one property at most, the cache key of its
    constructor, and one array at most, a new one: every other property of
    every object and every array that was there are as before. *)
Theorem mergeSuperClassesProperty_frame :
  ∀ (merge_of : loc → loc → list value → value) (fuel : nat)
    (constructor : value) (propertyName : string) (opt_mergeFn : value)
    (s s' : merge_state) (r : completion value),
    mergeSuperClassesProperty merge_of fuel constructor propertyName opt_mergeFn s
      = Some (s', r) →
    (∀ l name,
       reference_of constructor ≠ Some l ∨ name ≠ (propertyName ++ "_MERGED")%string →
       get_prop (st_heap s') l name = get_prop (st_heap s) l name) ∧
    (∀ a, a ≠ next_loc (st_heap s) →
          arrays (st_heap s') !! a = arrays (st_heap s) !! a).
Proof.
  intros merge_of fuel c name fn s s' r. unfold mergeSuperClassesProperty.
  destruct (read_prop (st_heap s) c (name ++ "_MERGED")) as [cached|e];
    [|by intros [= <- <-]].
  destruct (truthy cached); [by intros [= <- <-]|].
  destruct (collectSuperClassesProperty fuel (st_heap s) c name)
    as [[vs|e]|]; [| by intros [= <- <-] | done].
  cbn [alloc_array].
  assert (Hother : ∀ v h2,
    write_prop
      {| objects := objects (st_heap s);
         arrays := <[next_loc (st_heap s) := vs]> (arrays (st_heap s));
         next_loc := S (next_loc (st_heap s)) |} c (name ++ "_MERGED") v
      = Normal h2 →
    (∀ l name',
       reference_of c ≠ Some l ∨ name' ≠ (name ++ "_MERGED")%string →
       get_prop h2 l name' = get_prop (st_heap s) l name') ∧
    (∀ a, a ≠ next_loc (st_heap s) → arrays h2 !! a = arrays (st_heap s) !! a)).
  { intros v h2 Hw. destruct c as [| | | | |lc|lc]; try discriminate;
      cbn in Hw; injection Hw as <-; (split;
        [ intros l name' Hne; rewrite get_set_prop_other;
          [done | destruct Hne as [Hne|Hne]; [left; cbn in Hne; congruence | by right]]
        | intros a Ha; cbn; by rewrite lookup_insert_ne ]). }
  assert (Halloc :
    (∀ l name', get_prop
       {| objects := objects (st_heap s);
          arrays := <[next_loc (st_heap s) := vs]> (arrays (st_heap s));
          next_loc := S (next_loc (st_heap s)) |} l name' = get_prop (st_heap s) l name') ∧
    (∀ a, a ≠ next_loc (st_heap s) →
          <[next_loc (st_heap s) := vs]> (arrays (st_heap s)) !! a
          = arrays (st_heap s) !! a)).
  { split; [done|]. intros a Ha. by rewrite lookup_insert_ne. }
  destruct (truthy fn).
  - destruct fn as [| | | | | |f];
      try (intros [= <- <-]; cbn; split; [intros; apply Halloc | apply Halloc]).
    destruct (write_prop _ c _ _) as [h2|e] eqn:Hw.
    + intros [= <- <-]. cbn. by apply (Hother _ _ Hw).
    + intros [= <- <-]. cbn. split; [intros; apply Halloc | apply Halloc].
  - destruct (write_prop _ c _ _) as [h2|e] eqn:Hw.
    + intros [= <- <-]. cbn. by apply (Hother _ _ Hw).
    + intros [= <- <-]. cbn. split; [intros; apply Halloc | apply Halloc].
Qed.

Lemma mergeSuperClassesProperty_frame_witness :
  ∃ s' r,
    mergeSuperClassesProperty merge_to_zero 5 (VFun 0%nat) "ATTRS" (VFun 1%nat)
      one_class_state = Some (s', r) ∧
    get_prop (st_heap s') 0%nat "ATTRS" = VStr "a".
Proof.
  eexists _, _. split; [vm_compute; reflexivity|].
  edestruct (mergeSuperClassesProperty_frame merge_to_zero 5 (VFun 0%nat) "ATTRS"
               (VFun 1%nat) one_class_state) as [Hprops _];
    [vm_compute; reflexivity|].
  rewrite Hprops; [vm_compute; reflexivity|]. right. discriminate.
Defined.

(** X18: a merge function that is truthy and not a function is found out
    only after the super classes have been collected: the call throws a
    [TypeError], nothing is stored under the cache key, no property of any
    object changes. *)
Theorem mergeSuperClassesProperty_bad_merge_function :
  ∀ (merge_of : loc → loc → list value → value) (fuel : nat) (c : loc)
    (propertyName : string) (opt_mergeFn : value) (s : merge_state)
    (propertyValues : list value),
    truthy opt_mergeFn = true → isFunction opt_mergeFn = false →
    truthy (get_prop (st_heap s) c (propertyName ++ "_MERGED")) = false →
    collectSuperClassesProperty fuel (st_heap s) (VFun c) propertyName
      = Some (Normal propertyValues) →
    ∃ s',
      mergeSuperClassesProperty merge_of fuel (VFun c) propertyName opt_mergeFn s
        = Some (s', Throw TypeError) ∧
      objects (st_heap s') = objects (st_heap s) ∧
      collections s' = S (collections s) ∧
      merge_invocations s' = merge_invocations s.
Proof.
  intros merge_of fuel c name fn s vs Ht Hf Hc Hcollect.
  unfold mergeSuperClassesProperty. cbn [read_prop]. rewrite Hc, Hcollect, Ht.
  cbn [alloc_array].
  destruct fn; try discriminate; eexists; split_and!; reflexivity.
Qed.

Lemma mergeSuperClassesProperty_bad_merge_function_witness :
  ∃ s',
    mergeSuperClassesProperty merge_to_zero 5 (VFun 0%nat) "ATTRS" (VStr "concat")
      one_class_state = Some (s', Throw TypeError) ∧
    objects (st_heap s') = objects (st_heap one_class_state).
Proof.
  destruct (mergeSuperClassesProperty_bad_merge_function merge_to_zero 5 0%nat
              "ATTRS" (VStr "concat") one_class_state [VStr "a"])
    as (s' & Hcall & Hobjects & _);
    [reflexivity | reflexivity | vm_compute; reflexivity | vm_compute; reflexivity |].
  exists s'. by split.
Defined.

(** X19: without a merge function the merged value is the collected
    sequence itself: a new array with the collected values is returned and
    stored under the cache key, and no merge function is invoked. *)
Theorem mergeSuperClassesProperty_without_merge_function :
  ∀ (merge_of : loc → loc → list value → value) (fuel : nat) (c : loc)
    (propertyName : string) (opt_mergeFn : value) (s : merge_state)
    (propertyValues : list value),
    truthy opt_mergeFn = false →
    truthy (get_prop (st_heap s) c (propertyName ++ "_MERGED")) = false →
    collectSuperClassesProperty fuel (st_heap s) (VFun c) propertyName
      = Some (Normal propertyValues) →
    ∃ s',
      mergeSuperClassesProperty merge_of fuel (VFun c) propertyName opt_mergeFn s
        = Some (s', Normal (VObj (next_loc (st_heap s)))) ∧
      arrays (st_heap s') !! next_loc (st_heap s) = Some propertyValues ∧
      get_prop (st_heap s') c (propertyName ++ "_MERGED")
        = VObj (next_loc (st_heap s)) ∧
      collections s' = S (collections s) ∧
      merge_invocations s' = merge_invocations s.
Proof.
  intros merge_of fuel c name fn s vs Hfn Hc Hcollect.
  unfold mergeSuperClassesProperty. cbn [read_prop]. rewrite Hc, Hcollect, Hfn.
  cbn. eexists. split; [by rewrite get_set_prop|]. cbn.
  split_and!; [apply lookup_insert_eq | apply get_set_prop | done | done].
Qed.

Lemma mergeSuperClassesProperty_without_merge_function_witness :
  ∃ s',
    mergeSuperClassesProperty merge_to_zero 5 (VFun 0%nat) "ATTRS" VUndefined
      one_class_state = Some (s', Normal (VObj 2%nat)) ∧
    arrays (st_heap s') !! 2%nat = Some [VStr "a"].
Proof.
  destruct (mergeSuperClassesProperty_without_merge_function merge_to_zero 5 0%nat
              "ATTRS" VUndefined one_class_state [VStr "a"])
    as (s' & Hcall & Harr & _);
    [reflexivity | vm_compute; reflexivity | vm_compute; reflexivity |].
  exists s'. by split.
Defined.

(** ** [inherits] and [base] *)

Lemma props_of_set_prop (h : heap) (l l' : loc) (name : string) (v : value) :
  props_of (set_prop h l name v) l' =
    if decide (l = l') then <[name := v]> (props_of h l) else props_of h l'.
Proof.
  unfold props_of, set_prop. cbn. case_decide as Hl.
  - subst l'. by rewrite lookup_insert_eq.
  - by rewrite lookup_insert_ne.
Qed.

Lemma props_of_alloc_object (h : heap) (l : loc) :
  props_of (alloc_object h).1 l =
    if decide (next_loc h = l) then ∅ else props_of h l.
Proof.
  unfold props_of, alloc_object. cbn. case_decide as Hl.
  - subst l. by rewrite lookup_insert_eq.
  - by rewrite lookup_insert_ne.
Qed.

(** Reads the properties of an object off a store written as a sequence of
    updates, given the disequalities of the references in the context. *)
Ltac store_lookups :=
  repeat (progress (cbv beta iota delta [props_of set_prop objects];
                    rewrite ?lookup_insert_eq, ?lookup_insert_ne by done;
                    cbv beta iota delta [default from_option id])).

(** What [inherits] makes of the store, for a child that is an object. *)
Lemma inherits_normal (childCtor parentCtor parent_prototype : value)
    (c : loc) (s : class_store) :
  reference_of childCtor = Some c →
  read_prop (cs_heap s) parentCtor "prototype" = Normal parent_prototype →
  let h := cs_heap s in
  let o := next_loc h in
  let b := S (next_loc h) in
  let h1 := set_prop h c "superClass_" parent_prototype in
  let h3 := set_prop (alloc_object h1).1 c "prototype" (VObj o) in
  let h4 := set_prop h3 o "constructor" childCtor in
  let h6 := set_prop (alloc_object h4).1 c "base" (VFun b) in
  inherits childCtor parentCtor s =
    Normal {| cs_heap := h6;
              cs_proto := link_prototype o parent_prototype (cs_proto s);
              cs_base := <[b := parentCtor]> (cs_base s) |}.
Proof.
  intros Hc Hp. cbn zeta. unfold inherits. rewrite Hp.
  destruct childCtor as [| | | | |lc|lc]; try discriminate;
    injection Hc as ->; cbn [write_prop alloc_object read_prop];
    by rewrite get_set_prop.
Qed.

(** The properties after [inherits], object by object. *)
Lemma inherits_props (childCtor parentCtor parent_prototype : value)
    (c : loc) (s s' : class_store) :
  reference_of childCtor = Some c →
  read_prop (cs_heap s) parentCtor "prototype" = Normal parent_prototype →
  allocated (cs_heap s) c →
  inherits childCtor parentCtor s = Normal s' →
  props_of (cs_heap s') c =
    <["base" := VFun (S (next_loc (cs_heap s)))]>
      (<["prototype" := VObj (next_loc (cs_heap s))]>
         (<["superClass_" := parent_prototype]> (props_of (cs_heap s) c))) ∧
  props_of (cs_heap s') (next_loc (cs_heap s)) = {["constructor" := childCtor]} ∧
  (∀ l, allocated (cs_heap s) l → l ≠ c →
        props_of (cs_heap s') l = props_of (cs_heap s) l) ∧
  cs_proto s' !! next_loc (cs_heap s) = reference_of parent_prototype ∧
  (∀ l, l ≠ next_loc (cs_heap s) → cs_proto s' !! l = cs_proto s !! l) ∧
  cs_base s' !! S (next_loc (cs_heap s)) = Some parentCtor ∧
  next_loc (cs_heap s') = S (S (next_loc (cs_heap s))).
Proof.
  intros Hc Hp Halloc Hinh. unfold allocated in *.
  rewrite (inherits_normal _ _ _ _ _ Hc Hp) in Hinh. cbn zeta in Hinh.
  injection Hinh as <-. cbn [cs_heap cs_proto cs_base].
  assert (Hco : c ≠ next_loc (cs_heap s)) by lia.
  assert (Hcb : c ≠ S (next_loc (cs_heap s))) by lia.
  assert (Hob : next_loc (cs_heap s) ≠ S (next_loc (cs_heap s))) by lia.
  split_and!.
  - store_lookups. done.
  - store_lookups. by rewrite insert_empty.
  - intros l Hl Hne.
    assert (Hlo : next_loc (cs_heap s) ≠ l) by lia.
    assert (Hlb : S (next_loc (cs_heap s)) ≠ l) by lia.
    assert (Hlc : c ≠ l) by done.
    store_lookups. done.
  - unfold link_prototype. destruct (reference_of parent_prototype).
    + apply lookup_insert_eq.
    + apply lookup_delete_eq.
  - intros l Hl. unfold link_prototype. destruct (reference_of parent_prototype).
    + by rewrite lookup_insert_ne.
    + by rewrite lookup_delete_ne.
  - apply lookup_insert_eq.
  - reflexivity.
Qed.

Lemma read_prop_reference (h : heap) (v : value) (l : loc) (name : string) :
  reference_of v = Some l → read_prop h v name = Normal (get_prop h l name).
Proof. destruct v; try discriminate; by intros [= ->]. Qed.

(** X20: after [inherits(childCtor, parentCtor)] the child's [superClass_]
    is the parent's [prototype]; the child's [prototype] is a new object
    whose prototype link goes to the parent's [prototype] and whose only own
    property is [constructor], the child; the other properties of the child
    and all properties of every other object that was there are as
    before. *)
Theorem inherits_links :
  ∀ (childCtor parentCtor parent_prototype : value) (c : loc)
    (s s' : class_store),
    reference_of childCtor = Some c →
    read_prop (cs_heap s) parentCtor "prototype" = Normal parent_prototype →
    allocated (cs_heap s) c →
    inherits childCtor parentCtor s = Normal s' →
    ∃ o,
      ¬ allocated (cs_heap s) o ∧ allocated (cs_heap s') o ∧
      get_prop (cs_heap s') c "superClass_" = parent_prototype ∧
      get_prop (cs_heap s') c "prototype" = VObj o ∧
      props_of (cs_heap s') o = {["constructor" := childCtor]} ∧
      cs_proto s' !! o = reference_of parent_prototype ∧
      (∀ name, name ≠ "superClass_" → name ≠ "prototype" → name ≠ "base" →
               get_prop (cs_heap s') c name = get_prop (cs_heap s) c name) ∧
      (∀ l name, allocated (cs_heap s) l → l ≠ c →
                 get_prop (cs_heap s') l name = get_prop (cs_heap s) l name).
Proof.
  intros childCtor parentCtor pp c s s' Hc Hp Halloc Hinh.
  destruct (inherits_props _ _ _ _ _ _ Hc Hp Halloc Hinh)
    as (Hchild & Hproto & Hother & Hlink & _ & _ & Hnext).
  exists (next_loc (cs_heap s)). unfold allocated in *. unfold get_prop.
  rewrite Hchild, Hproto, Hnext.
  split_and!; [lia | lia | | | done | done | |].
  - by rewrite lookup_insert_ne, lookup_insert_ne, lookup_insert_eq.
  - by rewrite lookup_insert_ne, lookup_insert_eq.
  - intros name H1 H2 H3. by rewrite !lookup_insert_ne.
  - intros l name Hl Hne. by rewrite Hother.
Qed.

Lemma inherits_links_witness :
  ∃ s' o,
    inherits (VFun 0%nat) (VFun 1%nat)
      {| cs_heap := {| objects := {[0%nat := {["ATTRS" := VStr "child"]};
                                    1%nat := {["prototype" := VObj 2%nat]};
                                    2%nat := {["constructor" := VFun 1%nat]}]};
                       arrays := ∅; next_loc := 3%nat |};
         cs_proto := ∅; cs_base := ∅ |} = Normal s' ∧
    get_prop (cs_heap s') 0%nat "superClass_" = VObj 2%nat ∧
    get_prop (cs_heap s') 0%nat "prototype" = VObj o ∧
    cs_proto s' !! o = Some 2%nat.
Proof.
  eexists. 
  edestruct (inherits_links (VFun 0%nat) (VFun 1%nat) (VObj 2%nat) 0%nat
               {| cs_heap := {| objects := {[0%nat := {["ATTRS" := VStr "child"]};
                                             1%nat := {["prototype" := VObj 2%nat]};
                                             2%nat := {["constructor" := VFun 1%nat]}]};
                                arrays := ∅; next_loc := 3%nat |};
                  cs_proto := ∅; cs_base := ∅ |})
    as (o & _ & _ & Hsuper & Hprototype & _ & Hlink & _);
    [reflexivity | vm_compute; reflexivity | unfold allocated; cbn; lia
    | vm_compute; reflexivity |].
  exists o. split_and!; [reflexivity | exact Hsuper | exact Hprototype | exact Hlink].
Defined.

(** X21: [collectSuperClassesProperty] follows the link that [inherits]
    sets: after [inherits(Child, Parent)], with [Parent.prototype] an
    object that was there, the values collected for [Child] are [Child]'s
    own followed by those collected for the [constructor] of
    [Parent.prototype]. *)
Theorem inherits_then_collect :
  ∀ (parentCtor parent_prototype prototype_constructor : value) (c lp : loc)
    (s s' : class_store) (fuel : nat) (propertyName : string),
    read_prop (cs_heap s) parentCtor "prototype" = Normal parent_prototype →
    reference_of parent_prototype = Some lp →
    get_prop (cs_heap s) lp "constructor" = prototype_constructor →
    allocated (cs_heap s) c → allocated (cs_heap s) lp → lp ≠ c →
    inherits (VFun c) parentCtor s = Normal s' →
    collectSuperClassesProperty (S fuel) (cs_heap s') (VFun c) propertyName =
      match collectSuperClassesProperty fuel (cs_heap s') prototype_constructor
              propertyName with
      | Some (Normal vs) =>
          Some (Normal (get_prop (cs_heap s') c propertyName :: vs))
      | Some (Throw e) => Some (Throw e)
      | None => None
      end.
Proof.
  intros parentCtor pp pc c lp s s' fuel name Hp Hlp Hpc Hc Hlpa Hne Hinh.
  destruct (inherits_props (VFun c) _ _ c _ _ eq_refl Hp Hc Hinh)
    as (Hchild & _ & Hother & _).
  apply (collect_superclass_step fuel (cs_heap s') c pp pc name).
  - unfold get_prop. rewrite Hchild.
    by rewrite lookup_insert_ne, lookup_insert_ne, lookup_insert_eq.
  - destruct pp; try discriminate; done.
  - rewrite (read_prop_reference _ _ _ _ Hlp). unfold get_prop.
    rewrite (Hother lp Hlpa Hne). by rewrite <- Hpc.
Qed.

Lemma inherits_then_collect_witness :
  ∃ s',
    inherits (VFun 0%nat) (VFun 1%nat)
      {| cs_heap := {| objects := {[0%nat := {["ATTRS" := VStr "child"]};
                                    1%nat := {["prototype" := VObj 2%nat;
                                               "ATTRS" := VStr "parent"]};
                                    2%nat := {["constructor" := VFun 1%nat]}]};
                       arrays := ∅; next_loc := 3%nat |};
         cs_proto := ∅; cs_base := ∅ |} = Normal s' ∧
    collectSuperClassesProperty 2 (cs_heap s') (VFun 0%nat) "ATTRS"
      = Some (Normal [VStr "child"; VStr "parent"]).
Proof.
  eexists. split; [vm_compute; reflexivity|].
  rewrite (inherits_then_collect (VFun 1%nat) (VObj 2%nat) (VFun 1%nat) 0%nat 2%nat
             {| cs_heap := {| objects := {[0%nat := {["ATTRS" := VStr "child"]};
                                           1%nat := {["prototype" := VObj 2%nat;
                                                      "ATTRS" := VStr "parent"]};
                                           2%nat := {["constructor" := VFun 1%nat]}]};
                              arrays := ∅; next_loc := 3%nat |};
                cs_proto := ∅; cs_base := ∅ |});
    [vm_compute; reflexivity | vm_compute; reflexivity | reflexivity
    | vm_compute; reflexivity | unfold allocated; cbn; lia
    | unfold allocated; cbn; lia | lia | vm_compute; reflexivity].
Defined.

(** X22: through the child's new [prototype] every property of the
    parent's [prototype] is found, along the parent's own prototype links,
    except [constructor], which is the child. *)
Theorem inherits_prototype_chain :
  ∀ (childCtor parentCtor parent_prototype : value) (c lp : loc)
    (s s' : class_store) (fuel : nat),
    reference_of childCtor = Some c →
    read_prop (cs_heap s) parentCtor "prototype" = Normal parent_prototype →
    reference_of parent_prototype = Some lp →
    allocated (cs_heap s) c →
    inherits childCtor parentCtor s = Normal s' →
    chain_get (S fuel) s' (next_loc (cs_heap s)) "constructor" = Some childCtor ∧
    ∀ name, name ≠ "constructor" →
      chain_get (S fuel) s' (next_loc (cs_heap s)) name = chain_get fuel s' lp name.
Proof.
  intros childCtor parentCtor pp c lp s s' fuel Hc Hp Hlp Halloc Hinh.
  destruct (inherits_props _ _ _ _ _ _ Hc Hp Halloc Hinh)
    as (_ & Hproto & _ & Hlink & _).
  cbn [chain_get]. rewrite Hproto, Hlink, Hlp. split.
  - by rewrite lookup_singleton_eq.
  - intros name Hne. by rewrite lookup_singleton_ne.
Qed.

Lemma inherits_prototype_chain_witness :
  ∃ s',
    inherits (VFun 0%nat) (VFun 1%nat)
      {| cs_heap := {| objects := {[1%nat := {["prototype" := VObj 2%nat]};
                                    2%nat := {["constructor" := VFun 1%nat;
                                               "render" := VFun 7%nat]}]};
                       arrays := ∅; next_loc := 8%nat |};
         cs_proto := ∅; cs_base := ∅ |} = Normal s' ∧
    chain_get 2 s' 8%nat "render" = Some (VFun 7%nat) ∧
    chain_get 2 s' 8%nat "constructor" = Some (VFun 0%nat).
Proof.
  match goal with |- context [inherits _ _ ?s] => set (s0 := s) end.
  destruct (inherits (VFun 0%nat) (VFun 1%nat) s0) as [s'|e] eqn:Hinh;
    [|by vm_compute in Hinh].
  exists s'. split; [reflexivity|].
  destruct (inherits_prototype_chain (VFun 0%nat) (VFun 1%nat) (VObj 2%nat)
              0%nat 2%nat s0 s' 1) as [Hctor Hrest];
    [reflexivity | vm_compute; reflexivity | reflexivity
    | unfold allocated; cbn; lia | exact Hinh |].
  split; [|exact Hctor].
  cbn [next_loc cs_heap s0] in Hrest. rewrite (Hrest "render"); [|discriminate].
  vm_compute in Hinh. injection Hinh as <-. vm_compute. reflexivity.
Defined.

(** X23: [Child.base(me, methodName, ...args)] after
    [inherits(Child, Parent)] applies what [Parent.prototype] holds under
    [methodName] to [me] and the arguments: a function there is called with
    receiver [me], anything else there is a [TypeError]. *)
Theorem inherits_base_dispatch :
  ∀ (R : Type) (call_of : loc → value → list value → R)
    (childCtor parentCtor parent_prototype method : value) (c p lp : loc)
    (s s' : class_store) (fuel : nat)
    (me : value) (methodName : string) (args : list value),
    reference_of childCtor = Some c →
    reference_of parentCtor = Some p →
    get_prop (cs_heap s) p "prototype" = parent_prototype →
    reference_of parent_prototype = Some lp →
    props_of (cs_heap s) lp !! methodName = Some method →
    allocated (cs_heap s) c → allocated (cs_heap s) p → allocated (cs_heap s) lp →
    p ≠ c → lp ≠ c →
    inherits childCtor parentCtor s = Normal s' →
    call_base call_of (S fuel) s' childCtor me methodName args
      = Some (Function_apply call_of method me args).
Proof.
  intros R call_of childCtor parentCtor pp method c p lp s s' fuel me m args
    Hc Hp Hpp Hlp Hm Hca Hpa Hlpa Hpc Hlpc Hinh.
  assert (Hread : read_prop (cs_heap s) parentCtor "prototype" = Normal pp)
    by (by rewrite (read_prop_reference _ _ _ _ Hp), Hpp).
  destruct (inherits_props _ _ _ _ _ _ Hc Hread Hca Hinh)
    as (Hchild & _ & Hother & _ & _ & Hbase & _).
  unfold call_base. rewrite (read_prop_reference _ _ _ _ Hc).
  unfold get_prop at 1. rewrite Hchild, lookup_insert_eq. cbn [default from_option id].
  match goal with
  | |- match ?x with _ => _ end = _ => replace x with (Some parentCtor) by (by rewrite <- Hbase)
  end.
  unfold base. rewrite (read_prop_reference _ _ _ _ Hp).
  unfold get_prop. rewrite (Hother p Hpa Hpc). fold (get_prop (cs_heap s) p "prototype").
  rewrite Hpp.
  assert (Hget : chain_get (S fuel) s' lp m = Some method)
    by (cbn [chain_get]; by rewrite (Hother lp Hlpa Hlpc), Hm).
  destruct pp; try discriminate; injection Hlp as ->; cbn [chain_read];
    by rewrite Hget.
Qed.

Lemma inherits_base_dispatch_witness :
  ∃ s',
    inherits (VFun 0%nat) (VFun 1%nat)
      {| cs_heap := {| objects := {[1%nat := {["prototype" := VObj 2%nat]};
                                    2%nat := {["constructor" := VFun 1%nat;
                                               "render" := VFun 7%nat]}]};
                       arrays := ∅; next_loc := 8%nat |};
         cs_proto := ∅; cs_base := ∅ |} = Normal s' ∧
    call_base (λ f this args, (f, this, args)) 1 s' (VFun 0%nat)
      (VObj 5%nat) "render" [VStr "x"]
    = Some (Normal (7%nat, VObj 5%nat, [VStr "x"])).
Proof.
  match goal with |- context [inherits _ _ ?s] => set (s0 := s) end.
  destruct (inherits (VFun 0%nat) (VFun 1%nat) s0) as [s'|e] eqn:Hinh;
    [|by vm_compute in Hinh].
  exists s'. split; [reflexivity|].
  apply (inherits_base_dispatch _ (λ f this args, (f, this, args))
           (VFun 0%nat) (VFun 1%nat) (VObj 2%nat) (VFun 7%nat)
           0%nat 1%nat 2%nat s0 s' 0 (VObj 5%nat) "render" [VStr "x"]);
    [reflexivity | reflexivity | vm_compute; reflexivity | reflexivity
    | vm_compute; reflexivity | unfold allocated; cbn; lia
    | unfold allocated; cbn; lia | unfold allocated; cbn; lia | lia | lia
    | exact Hinh].
Defined.



(** * Further properties of [DomDelegatedEventHandle] *)

Lemma occurrences_cons (x y : loc) (bucket : list loc) :
  occurrences x (y :: bucket) =
    if decide (y = x) then S (occurrences x bucket) else occurrences x bucket.
Proof.
  unfold occurrences. rewrite filter_cons. by case_decide.
Qed.

Lemma occurrences_array_remove (x l : loc) (bucket : list loc) :
  occurrences x (array_remove bucket l) =
    if decide (x = l) then Nat.pred (occurrences l bucket) else occurrences x bucket.
Proof.
  induction bucket as [|y bucket IH]; [by case_decide|].
  cbn [array_remove]. destruct (decide (y = l)) as [->|Hyl].
  - rewrite !occurrences_cons.
    destruct (decide (x = l)) as [->|Hxl].
    + destruct (decide (l = l)); [done | congruence].
    + destruct (decide (l = x)); [congruence | done].
  - rewrite !occurrences_cons, IH.
    destruct (decide (x = l)) as [->|Hxl].
    + destruct (decide (y = l)); [congruence | done].
    + done.
Qed.

Lemma occurrences_zero (x : loc) (bucket : list loc) :
  occurrences x bucket = 0%nat ↔ x ∉ bucket.
Proof.
  induction bucket as [|y bucket IH]; [split; [intros _; apply not_elem_of_nil | done]|].
  rewrite occurrences_cons, not_elem_of_cons. case_decide as Hy.
  - split; [done | intros [Hne _]; congruence].
  - rewrite IH. split; [intros Hx; split; [congruence | done] | by intros [_ Hx]].
Qed.

(** A lookup after lines 37-40, under any key. *)
Lemma remove_from_bucket_lookup_any (arr : gmap string (list loc))
    (key k : string) (l : loc) :
  remove_from_bucket arr key l !! k =
    if decide (k = key) then
      match arr !! key with
      | Some bucket =>
          if (length (array_remove bucket l) =? 0)%nat then None
          else Some (array_remove bucket l)
      | None => None
      end
    else arr !! k.
Proof.
  case_decide as Hk.
  - subst k. apply remove_from_bucket_lookup.
  - by apply remove_from_bucket_other.
Qed.

(** Read as sequences, a missing bucket being the empty one, lines 37-40
    are [array.remove] on the bucket under the key. *)
Lemma remove_from_bucket_default (arr : gmap string (list loc))
    (key k : string) (l : loc) :
  default [] (remove_from_bucket arr key l !! k) =
    if decide (k = key) then array_remove (default [] (arr !! key)) l
    else default [] (arr !! k).
Proof.
  rewrite remove_from_bucket_lookup_any. case_decide as Hk; [|done].
  destruct (arr !! key) as [bucket|]; [|done]. cbn.
  destruct (length (array_remove bucket l) =? 0)%nat eqn:Hlen; [|done].
  apply length_zero_nil in Hlen. by rewrite Hlen.
Qed.

(** The buckets after [removeListener()]: the handle's bucket without one
    occurrence of its listener, every other bucket as it was. *)
Lemma bucket_at_removeListener (h : handle) (r r' : registry)
    (event : string) (selector : option string) :
  removeListener h r = Normal r' →
  bucket_at r' event selector =
    if decide (event = event_ h ∧ selector = handle_selector h)
    then array_remove (bucket_at r event selector) (listener_ h)
    else bucket_at r event selector.
Proof.
  intros Hrm. unfold bucket_at, handle_selector.
  destruct (isString (selector_ h)) eqn:Hs.
  - destruct (delegating r !! event_ h) as [d|] eqn:Hd;
      [|by rewrite (removeListener_delegated_missing h r Hs Hd) in Hrm].
    rewrite (removeListener_delegated h r d Hs Hd) in Hrm. injection Hrm as <-.
    cbn [listeners delegating]. destruct selector as [sel|].
    + destruct (decide (event = event_ h)) as [->|Hev].
      * rewrite lookup_insert_eq, Hd. cbn.
        rewrite remove_from_bucket_default.
        destruct (decide (sel = property_key (selector_ h))) as [->|Hsel].
        -- by rewrite decide_True.
        -- rewrite decide_False; [done|]. intros [_ [= ?]]. done.
      * rewrite lookup_insert_ne by done. rewrite decide_False; [done|].
        by intros [? _].
    + rewrite decide_False; [done|]. by intros [_ ?].
  - rewrite (removeListener_direct h r Hs) in Hrm. injection Hrm as <-.
    cbn [listeners delegating]. destruct selector as [sel|].
    + rewrite decide_False; [done|]. by intros [_ ?].
    + rewrite remove_from_bucket_default.
      destruct (decide (event = event_ h)) as [->|Hev].
      * by rewrite decide_True.
      * rewrite decide_False; [done|]. by intros [? _].
Qed.

(** X25: [removeListener()] takes away one occurrence of the handle's
    listener from the handle's bucket and no other subscription: the number
    of occurrences of every other listener in every bucket, and of every
    listener in every other bucket, is what it was. *)
Theorem removeListener_other_subscriptions :
  ∀ (h : handle) (r r' : registry) (event : string) (selector : option string)
    (x : loc),
    removeListener h r = Normal r' →
    occurrences x (bucket_at r' event selector) =
      if decide (event = event_ h ∧ selector = handle_selector h ∧ x = listener_ h)
      then Nat.pred (occurrences x (bucket_at r event selector))
      else occurrences x (bucket_at r event selector).
Proof.
  intros h r r' event selector x Hrm.
  rewrite (bucket_at_removeListener h r r' event selector Hrm).
  destruct (decide (event = event_ h ∧ selector = handle_selector h)) as [[-> ->]|Hne].
  - rewrite occurrences_array_remove.
    destruct (decide (x = listener_ h)) as [->|Hx].
    + by rewrite decide_True.
    + rewrite decide_False; [done|]. by intros (_ & _ & ?).
  - rewrite decide_False; [done|]. intros (? & ? & _). by apply Hne.
Qed.

Lemma removeListener_other_subscriptions_witness :
  ∃ r',
    removeListener (DomDelegatedEventHandle 0%nat "click" 1%nat VUndefined)
      {| listeners := {["click" := [1%nat; 2%nat; 1%nat]]}; delegating := ∅ |}
      = Normal r' ∧
    occurrences 1%nat (bucket_at r' "click" None) = 1%nat ∧
    occurrences 2%nat (bucket_at r' "click" None) = 1%nat.
Proof.
  match goal with |- context [removeListener _ ?r] => set (r0 := r) end.
  destruct (removeListener (DomDelegatedEventHandle 0%nat "click" 1%nat VUndefined) r0)
    as [r'|e] eqn:Hrm; [|by vm_compute in Hrm].
  exists r'. split; [reflexivity|]. split.
  - rewrite (removeListener_other_subscriptions _ r0 r' "click" None 1%nat Hrm).
    vm_compute. reflexivity.
  - rewrite (removeListener_other_subscriptions _ r0 r' "click" None 2%nat Hrm).
    vm_compute. reflexivity.
Defined.

Lemma bucket_at_bucket_of (h : handle) (r : registry) :
  bucket_at r (event_ h) (handle_selector h) = default [] (bucket_of h r).
Proof.
  unfold bucket_at, bucket_of, handle_selector.
  by destruct (isString (selector_ h)).
Qed.

Lemma removeListener_bucket_not_empty (h : handle) (r r' : registry) :
  removeListener h r = Normal r' → bucket_of h r' ≠ Some [].
Proof.
  intros Hrm. unfold bucket_of.
  destruct (isString (selector_ h)) eqn:Hs.
  - destruct (delegating r !! event_ h) as [d|] eqn:Hd.
    + rewrite (removeListener_delegated h r d Hs Hd) in Hrm.
      injection Hrm as <-. cbn. rewrite lookup_insert_eq. cbn.
      apply remove_from_bucket_not_empty.
    + by rewrite (removeListener_delegated_missing h r Hs Hd) in Hrm.
  - rewrite (removeListener_direct h r Hs) in Hrm. injection Hrm as <-. cbn.
    apply remove_from_bucket_not_empty.
Qed.

Lemma remove_from_bucket_absent (arr : gmap string (list loc)) (key : string)
    (l : loc) (bucket : list loc) :
  arr !! key = Some bucket → bucket ≠ [] → l ∉ bucket →
  remove_from_bucket arr key l = arr.
Proof.
  intros Hk Hne Hnot. unfold remove_from_bucket.
  rewrite Hk, (array_remove_absent _ _ Hnot), lookup_insert_eq.
  destruct bucket; [done|]. cbn. by apply insert_id.
Qed.

Lemma removeListener_absent (h : handle) (r : registry) (bucket : list loc) :
  bucket_of h r = Some bucket → bucket ≠ [] → listener_ h ∉ bucket →
  removeListener h r = Normal r.
Proof.
  intros Hb Hne Hnot. unfold bucket_of in Hb. destruct r as [ls dg]. cbn in Hb.
  destruct (isString (selector_ h)) eqn:Hs.
  - destruct (dg !! event_ h) as [d|] eqn:Hd; [|done]. cbn in Hb.
    rewrite (removeListener_delegated h (Registry ls dg) d Hs Hd). cbn.
    rewrite (remove_from_bucket_absent _ _ _ _ Hb Hne Hnot).
    destruct d as [sel]. cbn. by rewrite insert_id.
  - rewrite (removeListener_direct h (Registry ls dg) Hs). cbn.
    by rewrite (remove_from_bucket_absent _ _ _ _ Hb Hne Hnot).
Qed.

Lemma removeListener_again_returns (h : handle) (r r' : registry) :
  removeListener h r = Normal r' → ∃ r'', removeListener h r' = Normal r''.
Proof.
  intros Hrm. destruct (isString (selector_ h)) eqn:Hs.
  - destruct (delegating r !! event_ h) as [d|] eqn:Hd.
    + rewrite (removeListener_delegated h r d Hs Hd) in Hrm. injection Hrm as <-.
      eexists. apply removeListener_delegated; [done|]. cbn. apply lookup_insert_eq.
    + by rewrite (removeListener_delegated_missing h r Hs Hd) in Hrm.
  - eexists. by apply removeListener_direct.
Qed.

(** X26: a second [removeListener()] on the same handle never throws, and
    when the listener was in its bucket once at most, the second call
    changes nothing: the registry after two calls is the registry after
    one. *)
Theorem removeListener_twice :
  ∀ (h : handle) (r r' : registry),
    removeListener h r = Normal r' →
    (∃ r'', removeListener h r' = Normal r'') ∧
    ((occurrences (listener_ h) (bucket_at r (event_ h) (handle_selector h)) ≤ 1)%nat →
     removeListener h r' = Normal r').
Proof.
  intros h r r' Hrm. split; [by apply (removeListener_again_returns h r)|].
  intros Honce.
  assert (Hgone : listener_ h ∉ default [] (bucket_of h r')).
  { rewrite <- bucket_at_bucket_of. apply occurrences_zero.
    rewrite (bucket_at_removeListener h r r' _ _ Hrm), decide_True by done.
    rewrite occurrences_array_remove, decide_True by done. lia. }
  destruct (bucket_of h r') as [bucket|] eqn:Hb.
  - apply (removeListener_absent h r' bucket Hb); [|done].
    intros ->. by apply (removeListener_bucket_not_empty h r r' Hrm).
  - apply removeListener_missing_bucket; [done|]. intros Hs.
    destruct (delegating r !! event_ h) as [d|] eqn:Hd.
    + rewrite (removeListener_delegated h r d Hs Hd) in Hrm. injection Hrm as <-.
      cbn. rewrite lookup_insert_eq. by eexists.
    + by rewrite (removeListener_delegated_missing h r Hs Hd) in Hrm.
Qed.

Lemma removeListener_twice_witness :
  ∃ r',
    removeListener (DomDelegatedEventHandle 0%nat "click" 1%nat (VStr ".item"))
      {| listeners := ∅;
         delegating := {["click" := {| selectors := {[".item" := [1%nat]]} |}]} |}
      = Normal r' ∧
    removeListener (DomDelegatedEventHandle 0%nat "click" 1%nat (VStr ".item")) r'
      = Normal r'.
Proof.
  match goal with |- context [removeListener _ ?r] => set (r0 := r) end.
  destruct (removeListener
              (DomDelegatedEventHandle 0%nat "click" 1%nat (VStr ".item")) r0)
    as [r'|e] eqn:Hrm; [|by vm_compute in Hrm].
  exists r'. split; [reflexivity|].
  apply (removeListener_twice _ r0 r' Hrm). vm_compute. lia.
Defined.

(** X27: a registry without empty buckets stays one: if no mapping holds an
    empty bucket before [removeListener()], none does after it. *)
Theorem removeListener_no_empty_bucket :
  ∀ (h : handle) (r r' : registry),
    no_empty_bucket r → removeListener h r = Normal r' → no_empty_bucket r'.
Proof.
  intros h r r' [Hls Hdg] Hrm.
  assert (Hrfb : ∀ arr key l k bucket,
            (∀ k' b, arr !! k' = Some b → b ≠ []) →
            remove_from_bucket arr key l !! k = Some bucket → bucket ≠ []).
  { intros arr key l k bucket Harr. rewrite remove_from_bucket_lookup_any.
    case_decide as Hk; [|apply Harr].
    destruct (arr !! key) as [b|]; [|done].
    destruct (length (array_remove b l) =? 0)%nat eqn:Hlen; [done|].
    intros [= <-] Hnil. by rewrite Hnil in Hlen. }
  destruct (isString (selector_ h)) eqn:Hs.
  - destruct (delegating r !! event_ h) as [d|] eqn:Hd;
      [|by rewrite (removeListener_delegated_missing h r Hs Hd) in Hrm].
    rewrite (removeListener_delegated h r d Hs Hd) in Hrm. injection Hrm as <-.
    split; cbn [listeners delegating]; [done|].
    intros event d' selector bucket. rewrite lookup_insert.
    case_decide as Hev.
    + intros [= <-]. cbn. apply Hrfb. intros k' b. by apply (Hdg (event_ h) d).
    + apply Hdg.
  - rewrite (removeListener_direct h r Hs) in Hrm. injection Hrm as <-.
    split; cbn [listeners delegating]; [|done].
    intros event bucket. by apply Hrfb.
Qed.

Lemma removeListener_no_empty_bucket_witness :
  no_empty_bucket
    {| listeners := <["click" := [2%nat]]> ∅; delegating := ∅ |}.
Proof.
  assert (H0 : no_empty_bucket
                 {| listeners := {["click" := [1%nat; 2%nat]]}; delegating := ∅ |}).
  { split; cbn.
    - intros event bucket Hb. apply lookup_singleton_Some in Hb as [_ <-]. done.
    - intros event d selector bucket Hd. by rewrite lookup_empty in Hd. }
  apply (removeListener_no_empty_bucket
           (DomDelegatedEventHandle 0%nat "click" 1%nat VUndefined) _ _ H0).
  rewrite removeListener_direct by reflexivity. cbn.
  unfold remove_from_bucket. rewrite lookup_singleton_eq, array_remove_head.
  rewrite lookup_insert_eq. cbn. by rewrite insert_singleton_eq, insert_empty.
Defined.

(** X28: [removeListener()] for a listener that is not in the handle's
    bucket, the bucket being there and not empty, leaves the registry as it
    is. *)
Theorem removeListener_unregistered_listener :
  ∀ (h : handle) (r : registry) (bucket : list loc),
    bucket_of h r = Some bucket → bucket ≠ [] → listener_ h ∉ bucket →
    removeListener h r = Normal r.
Proof. intros h r bucket. apply removeListener_absent. Qed.

Lemma removeListener_unregistered_listener_witness :
  removeListener (DomDelegatedEventHandle 0%nat "click" 9%nat VUndefined)
    {| listeners := {["click" := [1%nat; 2%nat]]}; delegating := ∅ |}
  = Normal {| listeners := {["click" := [1%nat; 2%nat]]}; delegating := ∅ |}.
Proof.
  apply (removeListener_unregistered_listener _ _ [1%nat; 2%nat]).
  - cbn. apply lookup_singleton_eq.
  - done.
  - intros Hin. repeat (apply elem_of_cons in Hin as [Hin|Hin]; [discriminate|]).
    by apply elem_of_nil in Hin.
Defined.

Lemma array_remove_comm (bucket : list loc) (x y : loc) :
  array_remove (array_remove bucket x) y = array_remove (array_remove bucket y) x.
Proof.
  induction bucket as [|a bucket IH]; [done|]. cbn [array_remove].
  destruct (decide (a = x)) as [Hax|Hax]; destruct (decide (a = y)) as [Hay|Hay];
    cbn [array_remove].
  - congruence.
  - by rewrite decide_True.
  - by rewrite decide_True.
  - rewrite !decide_False by done. by rewrite IH.
Qed.

Lemma remove_from_bucket_comm (arr : gmap string (list loc)) (k1 k2 : string)
    (l1 l2 : loc) :
  remove_from_bucket (remove_from_bucket arr k1 l1) k2 l2 =
  remove_from_bucket (remove_from_bucket arr k2 l2) k1 l1.
Proof.
  apply map_eq. intros k. rewrite !remove_from_bucket_lookup_any.
  destruct (decide (k1 = k2)) as [->|Hne].
  - rewrite !(decide_True (P := k2 = k2)) by done.
    destruct (decide (k = k2)) as [Hk|Hk]; [|done].
    destruct (arr !! k2) as [bucket|]; [|done].
    assert (Hprune : ∀ x y,
      match (if (length (array_remove bucket x) =? 0)%nat then None
             else Some (array_remove bucket x)) with
      | Some b => if (length (array_remove b y) =? 0)%nat then None
                  else Some (array_remove b y)
      | None => None
      end =
      if (length (array_remove (array_remove bucket x) y) =? 0)%nat then None
      else Some (array_remove (array_remove bucket x) y)).
    { intros x y.
      destruct (length (array_remove bucket x) =? 0)%nat eqn:Hlen; [|done].
      apply length_zero_nil in Hlen. by rewrite Hlen. }
    by rewrite !Hprune, array_remove_comm.
  - repeat case_decide; subst; try done; congruence.
Qed.

(** X29: the order of two removals does not matter: when each of two
    handles can be removed from a registry, they can be removed one after
    the other in either order, with the same registry in the end. *)
Theorem removeListener_commute :
  ∀ (h1 h2 : handle) (r r1 r2 : registry),
    removeListener h1 r = Normal r1 →
    removeListener h2 r = Normal r2 →
    ∃ r12,
      removeListener h2 r1 = Normal r12 ∧ removeListener h1 r2 = Normal r12.
Proof.
  intros h1 h2 r r1 r2 H1 H2.
  destruct (isString (selector_ h1)) eqn:Hs1; destruct (isString (selector_ h2)) eqn:Hs2.
  - destruct (delegating r !! event_ h1) as [d1|] eqn:Hd1;
      [|by rewrite (removeListener_delegated_missing h1 r Hs1 Hd1) in H1].
    destruct (delegating r !! event_ h2) as [d2|] eqn:Hd2;
      [|by rewrite (removeListener_delegated_missing h2 r Hs2 Hd2) in H2].
    rewrite (removeListener_delegated h1 r d1 Hs1 Hd1) in H1. injection H1 as <-.
    rewrite (removeListener_delegated h2 r d2 Hs2 Hd2) in H2. injection H2 as <-.
    destruct (decide (event_ h1 = event_ h2)) as [Heq|Hne].
    + assert (d1 = d2) as <- by congruence.
      eexists. split.
      * apply removeListener_delegated; [done|]. cbn. rewrite <- Heq.
        apply lookup_insert_eq.
      * rewrite (removeListener_delegated h1 _
                   {| selectors := remove_from_bucket (selectors d1)
                                     (property_key (selector_ h2)) (listener_ h2) |} Hs1);
          [|cbn; rewrite Heq; apply lookup_insert_eq].
        cbn. rewrite <- Heq, !insert_insert_eq.
        by rewrite remove_from_bucket_comm.
    + eexists. split.
      * apply (removeListener_delegated h2 _ d2 Hs2). cbn.
        by rewrite lookup_insert_ne.
      * rewrite (removeListener_delegated h1 _ d1 Hs1);
          [|cbn; by rewrite lookup_insert_ne].
        cbn. by rewrite insert_insert_ne.
  - destruct (delegating r !! event_ h1) as [d1|] eqn:Hd1;
      [|by rewrite (removeListener_delegated_missing h1 r Hs1 Hd1) in H1].
    rewrite (removeListener_delegated h1 r d1 Hs1 Hd1) in H1. injection H1 as <-.
    rewrite (removeListener_direct h2 r Hs2) in H2. injection H2 as <-.
    eexists. split.
    + by apply removeListener_direct.
    + by rewrite (removeListener_delegated h1 _ d1 Hs1).
  - destruct (delegating r !! event_ h2) as [d2|] eqn:Hd2;
      [|by rewrite (removeListener_delegated_missing h2 r Hs2 Hd2) in H2].
    rewrite (removeListener_direct h1 r Hs1) in H1. injection H1 as <-.
    rewrite (removeListener_delegated h2 r d2 Hs2 Hd2) in H2. injection H2 as <-.
    eexists. split.
    + by apply (removeListener_delegated h2 _ d2 Hs2).
    + by rewrite (removeListener_direct h1 _ Hs1).
  - rewrite (removeListener_direct h1 r Hs1) in H1. injection H1 as <-.
    rewrite (removeListener_direct h2 r Hs2) in H2. injection H2 as <-.
    eexists. split.
    + by apply removeListener_direct.
    + rewrite (removeListener_direct h1 _ Hs1). cbn.
      by rewrite remove_from_bucket_comm.
Qed.

Lemma removeListener_commute_witness :
  ∃ r12,
    removeListener (DomDelegatedEventHandle 0%nat "click" 2%nat VUndefined)
      {| listeners := {["click" := [2%nat]]}; delegating := ∅ |} = Normal r12 ∧
    removeListener (DomDelegatedEventHandle 0%nat "click" 1%nat VUndefined)
      {| listeners := {["click" := [1%nat]]}; delegating := ∅ |} = Normal r12.
Proof.
  apply (removeListener_commute
           (DomDelegatedEventHandle 0%nat "click" 1%nat VUndefined)
           (DomDelegatedEventHandle 0%nat "click" 2%nat VUndefined)
           {| listeners := {["click" := [1%nat; 2%nat]]}; delegating := ∅ |}).
  - rewrite removeListener_direct by reflexivity. cbn.
    unfold remove_from_bucket. rewrite lookup_singleton_eq, array_remove_head.
    rewrite lookup_insert_eq. cbn. by rewrite insert_singleton_eq.
  - rewrite removeListener_direct by reflexivity. cbn.
    unfold remove_from_bucket. rewrite lookup_singleton_eq. cbn.
    rewrite lookup_insert_eq. cbn. by rewrite insert_singleton_eq.
Defined.
